(** * Request decoding and command dispatch of [src/redis_request.cc]

    A shallow embedding of [Redis::Request::Tokenize],
    [Redis::Request::ExecuteCommands] and of the channel bookkeeping of
    [Redis::Connection], with the properties the specification states
    about them.

    Conventions.  A byte is an [ascii]; an [evbuffer], a [std::string] and
    a [malloc]ed line are lists of bytes.  Machine integers are [Z] with
    the wrap-around written out.  A run of the C++ code that leaves the
    defined behaviour of the language (a read outside an allocation, a
    signed overflow, an exception nobody catches) is a [Fault]. *)

From Stdlib Require Import String Ascii List ZArith Bool Lia.
Import ListNotations.
Open Scope Z_scope.

(** ** Bytes *)

Definition bytes := list ascii.

Definition byte_val (c : ascii) : Z := Z.of_N (N_of_ascii c).

Definition NUL : ascii := ascii_of_nat 0.
Definition CR : ascii := ascii_of_nat 13.
Definition LF : ascii := ascii_of_nat 10.
Definition CRLF : bytes := [CR; LF].

Definition is_byte (n : Z) (c : ascii) : bool := byte_val c =? n.

(** [std::string::size], [std::vector::size], [evbuffer_get_length]: a
    [size_t]. *)
Definition size {A : Type} (l : list A) : Z := Z.of_nat (length l).

(** A test input written line by line: every line is followed by CR LF. *)
Definition wire (lines : list string) : bytes :=
  flat_map (fun l => list_ascii_of_string l ++ CRLF) lines.

(** ** Machine integers *)

Definition ULLONG_MAX : Z := 2 ^ 64 - 1.
Definition INT64_MIN : Z := - 2 ^ 63.

(** No [std::string] has more than [PTRDIFF_MAX] bytes: the constructor
    throws [std::length_error] for a greater length, whatever the
    implementation. *)
Definition string_max_size : Z := 2 ^ 63 - 1.

(** Arithmetic on [size_t] is modulo [2^64]. *)
Definition wrap64 (z : Z) : Z := z mod 2 ^ 64.

(** Conversion of an [unsigned long long] to a signed 64-bit integer. *)
Definition to_int64 (z : Z) : Z :=
  let u := wrap64 z in if u <? 2 ^ 63 then u else u - 2 ^ 64.

(** ** libevent: [evbuffer_readln] with [EVBUFFER_EOL_CRLF_STRICT]

    The line ends at the first CR that is directly followed by LF.  The
    result is the line without its terminator and the buffer after the
    terminator; without a terminator nothing is drained and the result is
    [None] (the C function returns [NULL]). *)
Fixpoint evbuffer_readln (input : bytes) : option (bytes * bytes) :=
  match input with
  | [] => None
  | c :: rest =>
      match rest with
      | [] => None
      | d :: rest' =>
          if is_byte 13 c && is_byte 10 d then Some ([], rest')
          else match evbuffer_readln rest with
               | Some (line, after) => Some (c :: line, after)
               | None => None
               end
      end
  end.

(** The memory [evbuffer_readln] returns: the line and a terminating NUL. *)
Definition c_str (line : bytes) : bytes := line ++ [NUL].

(** ** libc: [strtoull] in base 10

    The functions below read the bytes of an allocation from a pointer on.
    The list is what is left of the allocation from that pointer; a read
    when nothing is left is a read outside the allocation, and the result
    is [None]. *)

Definition isspace (c : ascii) : bool :=
  let n := byte_val c in (n =? 32) || ((9 <=? n) && (n <=? 13)).

Definition isdigit (c : ascii) : bool :=
  let n := byte_val c in (48 <=? n) && (n <=? 57).

Fixpoint skip_space (s : bytes) : option bytes :=
  match s with
  | [] => None
  | c :: s' => if isspace c then skip_space s' else Some s
  end.

Fixpoint scan_digits (acc : Z) (s : bytes) : option Z :=
  match s with
  | [] => None
  | c :: s' =>
      if isdigit c then scan_digits (acc * 10 + (byte_val c - 48)) s'
      else Some acc
  end.

(** White space is skipped, one sign is accepted, the digits are read; a
    value above [ULLONG_MAX] gives [ULLONG_MAX], a minus sign negates
    modulo [2^64], no digit at all gives 0. *)
Definition strtoull (s : bytes) : option Z :=
  match skip_space s with
  | None | Some [] => None
  | Some (c :: s') =>
      let neg := is_byte 45 c in
      let digits := if neg || is_byte 43 c then s' else c :: s' in
      match scan_digits 0 digits with
      | None => None
      | Some v =>
          Some (if ULLONG_MAX <? v then ULLONG_MAX
                else if neg then wrap64 (- v) else v)
      end
  end.

(** ** The decoder state of [Redis::Request] *)

Inductive ParserState := ArrayLen | BulkLen | BulkData.

(** Modelled from the spec: the declarations of [multi_bulk_len_] and
    [bulk_len_] are in redis_request.h, which is missing.  The spec calls
    the pending element count "signed, decremented per element", so
    [multi_bulk_len_] is a signed 64-bit integer; [bulk_len_] is a byte
    length and is compared with [evbuffer_get_length], a [size_t]: it is
    unsigned, and holds what [strtoull] returned. *)
Record Request := mkRequest {
  state_ : ParserState;
  multi_bulk_len_ : Z;
  bulk_len_ : N;
  tokens_ : list bytes;
  commands_ : list (list bytes)
}.

Definition new_request : Request :=
  mkRequest ArrayLen 0 0 [] [].

(** Modelled from the spec: the class of [svr_->stats_] is missing; the
    spec names byte-count accounting (inbound/outbound), per-command call
    counters and per-command latency recording.  The counters are
    unbounded, the calls and the latencies are kept as the list of what
    was recorded, oldest first. *)
Record Stats := mkStats {
  inbound_bytes : Z;
  outbound_bytes : Z;
  calls : list bytes;
  latencies : list (Z * bytes)
}.

Definition new_stats : Stats := mkStats 0 0 [] [].

Definition IncrInbondBytes (n : Z) (st : Stats) : Stats :=
  mkStats (inbound_bytes st + n) (outbound_bytes st) (calls st) (latencies st).

Definition IncrOutbondBytes (n : Z) (st : Stats) : Stats :=
  mkStats (inbound_bytes st) (outbound_bytes st + n) (calls st) (latencies st).

Definition IncrCalls (name : bytes) (st : Stats) : Stats :=
  mkStats (inbound_bytes st) (outbound_bytes st) (calls st ++ [name])
          (latencies st).

Definition IncrLatency (d : Z) (name : bytes) (st : Stats) : Stats :=
  mkStats (inbound_bytes st) (outbound_bytes st) (calls st)
          (latencies st ++ [(d, name)]).

(** ** [Request::Tokenize] *)

Inductive Fault :=
| OutOfBoundsRead   (* a read outside an allocation *)
| SignedOverflow    (* [--] on the least signed 64-bit integer *)
| LengthError.      (* a [std::string] longer than any string can be *)

Inductive Step :=
| Suspend
| Abort (f : Fault)
| Progress (r : Request) (st : Stats) (input : bytes).

(** [len > 0 ? std::strtoull(line + 1, nullptr, 10) : 0] stored into
    [multi_bulk_len_]. *)
Definition array_len_of_line (line : bytes) : option Z :=
  if 0 <? size line
  then option_map to_int64 (strtoull (skipn 1 (c_str line)))
  else Some 0.

(** [std::strtoull(line + 1, nullptr, 10)] stored into [bulk_len_]. *)
Definition bulk_len_of_line (line : bytes) : option N :=
  option_map Z.to_N (strtoull (skipn 1 (c_str line))).

(** One turn of the [while (true)] loop: the [switch] on [state_]. *)
Definition Tokenize_step (r : Request) (st : Stats) (input : bytes) : Step :=
  match state_ r with
  | ArrayLen =>
      match evbuffer_readln input with
      | None => Suspend
      | Some (line, input') =>
          let st' := IncrInbondBytes (size line) st in
          match array_len_of_line line with
          | None => Abort OutOfBoundsRead
          | Some n =>
              Progress (mkRequest BulkLen n (bulk_len_ r) (tokens_ r)
                                  (commands_ r)) st' input'
          end
      end
  | BulkLen =>
      match evbuffer_readln input with
      | None => Suspend
      | Some (line, input') =>
          let st' := IncrInbondBytes (size line) st in
          match bulk_len_of_line line with
          | None => Abort OutOfBoundsRead
          | Some n =>
              Progress (mkRequest BulkData (multi_bulk_len_ r) n (tokens_ r)
                                  (commands_ r)) st' input'
          end
      end
  | BulkData =>
      let len := Z.of_N (bulk_len_ r) in
      if size input <? wrap64 (len + 2) then Suspend
      else if string_max_size <? len then Abort LengthError
      else
        let data := firstn (Z.to_nat len) input in
        let tokens := tokens_ r ++ [data] in
        let input' := skipn (Z.to_nat (len + 2)) input in
        let st' := IncrInbondBytes (len + 2) st in
        if multi_bulk_len_ r =? INT64_MIN then Abort SignedOverflow
        else
          let n := multi_bulk_len_ r - 1 in
          if n <=? 0
          then Progress (mkRequest ArrayLen n (bulk_len_ r) []
                                   (commands_ r ++ [tokens])) st' input'
          else Progress (mkRequest BulkLen n (bulk_len_ r) tokens
                                   (commands_ r)) st' input'
  end.

Inductive Outcome :=
| Returned (r : Request) (st : Stats) (input : bytes)
| Crashed (f : Fault)
| Exhausted.

(** The loop, with a bound on the number of turns. *)
Fixpoint Tokenize_loop (fuel : nat) (r : Request) (st : Stats) (input : bytes)
  : Outcome :=
  match fuel with
  | O => Exhausted
  | S fuel' =>
      match Tokenize_step r st input with
      | Suspend => Returned r st input
      | Abort f => Crashed f
      | Progress r' st' input' => Tokenize_loop fuel' r' st' input'
      end
  end.

(** Every turn that does not return drains at least two bytes, so one turn
    more than the buffer has bytes is enough ([Tokenize_total]). *)
Definition Tokenize (r : Request) (st : Stats) (input : bytes) : Outcome :=
  Tokenize_loop (S (length input)) r st input.

(** Successive read events: the transport appends the bytes that arrived
    to what the last call left in the buffer, then the decoder runs. *)
Fixpoint deliver (r : Request) (st : Stats) (input : bytes)
         (chunks : list bytes) : Outcome :=
  match chunks with
  | [] => Returned r st input
  | chunk :: more =>
      match Tokenize r st (input ++ chunk) with
      | Returned r' st' input' => deliver r' st' input' more
      | bad => bad
      end
  end.

(** ** Strings *)

Fixpoint bytes_eqb (a b : bytes) : bool :=
  match a, b with
  | [], [] => true
  | x :: a', y :: b' => Ascii.eqb x y && bytes_eqb a' b'
  | _, _ => false
  end.

Definition str (s : string) : bytes := list_ascii_of_string s.

Definition tolower (c : ascii) : ascii :=
  let n := byte_val c in
  if (65 <=? n) && (n <=? 90) then ascii_of_N (Z.to_N (n + 32)) else c.

(** Modelled from the spec: [Util::ToLower] is in util.cc, which is
    missing; the spec compares command names case-insensitively, so every
    upper-case letter is replaced by its lower-case letter. *)
Definition ToLower (s : bytes) : bytes := map tolower s.

(** Modelled from the spec: [Redis::Error] is in redis_reply.cc, which is
    missing; an error reply is "a single line beginning with an
    error-sentinel character followed by a human-readable message". *)
Definition Error (msg : bytes) : bytes := str "-" ++ msg ++ CRLF.

Inductive Status := OK | NotOK (msg : bytes).

Definition IsOK (s : Status) : bool :=
  match s with OK => true | NotOK _ => false end.

(** Conversion of a [size_t] to [int]. *)
Definition to_int (z : Z) : Z :=
  let u := z mod 2 ^ 32 in if u <? 2 ^ 31 then u else u - 2 ^ 32.

(** ** Sessions and the server *)

(** Modelled from the spec: [Server::SubscribeChannel] and
    [Server::UnSubscribeChannel] are missing; the registry is told the
    channel and the session, and the calls are kept in the order they were
    made.  The session is named by its descriptor. *)
Inductive RegistryCall :=
| RegSubscribe (channel : bytes) (session : Z)
| RegUnSubscribe (channel : bytes) (session : Z).

(** What a function of the session or of the dispatcher comes to: its
    result, undefined behaviour, or a loop bound that was too small. *)
Inductive Run (A : Type) :=
| Finished (a : A)
| Undefined (f : Fault)
| OutOfFuel.
Arguments Finished {A} a.
Arguments Undefined {A} f.
Arguments OutOfFuel {A}.

Section Dispatch.

(** The commands of redis_cmd.h, which is missing: what a command is, is
    left open, and so is what the registry and a command answer. *)
Variable Commander : Type.

(** Modelled from the spec: the declaration of [Connection] is in
    redis_request.h, which is missing.  The fields are what the member
    functions in redis_request.cc read and write: the descriptor behind
    [GetFD], the flags, the namespace behind [GetNamespace], the role
    behind [IsRepl], the subscribed channels (a [std::vector] of strings:
    [emplace_back], [erase] at an iterator), the bound command, the name
    behind [SetLastCmd], and the bytes written to the output buffer of
    [bev_].  The two time stamps are left out. *)
Record Connection := mkConnection {
  fd_ : Z;
  flags_ : Z;
  ns_ : bytes;
  repl_ : bool;
  subscribe_channels_ : list bytes;
  current_cmd_ : option Commander;
  last_cmd_ : bytes;
  output_ : bytes
}.

Record Config := mkConfig { slave_readonly : bool }.

Record Server := mkServer {
  stats_ : Stats;
  is_loading_ : bool;
  is_slave_ : bool;
  config_ : Config;
  pubsub_ : list RegistryCall;
  slowlog_ : list (list bytes * Z);
  errors_ : list bytes
}.

(** What a command can see and change: the server and the session. *)
Record World := mkWorld { svr_ : Server; conn_ : Connection }.

Variable kCloseAfterReply : Z.
Variable LookupCommand : bytes -> bool -> option Commander.
Variable GetArity : Commander -> Z.
Variable IsWrite : Commander -> bool.
Variable Name : Commander -> bytes.
Variable Parse : Commander -> list bytes -> Status.
(** [Execute] gets the tokens bound by [SetArgs], the server and the
    session, and the [reply] string of the caller; it answers with its
    status, the [reply] string, and the time the call took in
    microseconds. *)
Variable Execute :
  Commander -> list bytes -> World -> bytes -> Status * bytes * Z * World.

Definition with_stats (f : Stats -> Stats) (s : Server) : Server :=
  mkServer (f (stats_ s)) (is_loading_ s) (is_slave_ s) (config_ s)
           (pubsub_ s) (slowlog_ s) (errors_ s).

Definition with_pubsub (c : RegistryCall) (s : Server) : Server :=
  mkServer (stats_ s) (is_loading_ s) (is_slave_ s) (config_ s)
           (pubsub_ s ++ [c]) (slowlog_ s) (errors_ s).

Definition SlowlogPushEntryIfNeeded (args : list bytes) (d : Z) (s : Server)
  : Server :=
  mkServer (stats_ s) (is_loading_ s) (is_slave_ s) (config_ s)
           (pubsub_ s) (slowlog_ s ++ [(args, d)]) (errors_ s).

Definition log_error (line : bytes) (s : Server) : Server :=
  mkServer (stats_ s) (is_loading_ s) (is_slave_ s) (config_ s)
           (pubsub_ s) (slowlog_ s) (errors_ s ++ [line]).

Definition with_channels (l : list bytes) (c : Connection) : Connection :=
  mkConnection (fd_ c) (flags_ c) (ns_ c) (repl_ c) l (current_cmd_ c)
               (last_cmd_ c) (output_ c).

Definition with_current_cmd (k : Commander) (c : Connection) : Connection :=
  mkConnection (fd_ c) (flags_ c) (ns_ c) (repl_ c) (subscribe_channels_ c)
               (Some k) (last_cmd_ c) (output_ c).

Definition SetLastCmd (name : bytes) (c : Connection) : Connection :=
  mkConnection (fd_ c) (flags_ c) (ns_ c) (repl_ c) (subscribe_channels_ c)
               (current_cmd_ c) name (output_ c).

Definition add_output (msg : bytes) (c : Connection) : Connection :=
  mkConnection (fd_ c) (flags_ c) (ns_ c) (repl_ c) (subscribe_channels_ c)
               (current_cmd_ c) (last_cmd_ c) (output_ c ++ msg).

(** [Connection::SetFlag], [Connection::IsFlagEnabled]. *)
Definition SetFlag (flag : Z) (c : Connection) : Connection :=
  mkConnection (fd_ c) (Z.lor (flags_ c) flag) (ns_ c) (repl_ c)
               (subscribe_channels_ c) (current_cmd_ c) (last_cmd_ c)
               (output_ c).

Definition IsFlagEnabled (flag : Z) (c : Connection) : bool :=
  0 <? Z.land (flags_ c) flag.

(** [Connection::Reply]. *)
Definition Reply (msg : bytes) (w : World) : World :=
  mkWorld (with_stats (IncrOutbondBytes (size msg)) (svr_ w))
          (add_output msg (conn_ w)).

(** ** Channel subscriptions *)

(** [Connection::SubscribeChannel]. *)
Definition SubscribeChannel (channel : bytes) (w : World) : World :=
  if existsb (bytes_eqb channel) (subscribe_channels_ (conn_ w)) then w
  else
    mkWorld (with_pubsub (RegSubscribe channel (fd_ (conn_ w))) (svr_ w))
            (with_channels (subscribe_channels_ (conn_ w) ++ [channel])
                           (conn_ w)).

(** Removal of the element at position [i] of a vector. *)
Definition erase (i : nat) (l : list bytes) : list bytes :=
  firstn i l ++ skipn (S i) l.

(** [Connection::UnSubscribeChannel]: the [for] loop, the iterator being
    the position [i] in the vector.  [erase] moves the elements behind the
    position one place down and the loop goes on with [iter++]; the loop
    ends when the iterator is [end()], and an iterator behind [end()] is
    read outside the vector.  (By the letter of the language the iterator
    is invalid after [erase]; the model follows what the iterator of a
    [std::vector] is, a pointer into its array.) *)
Fixpoint UnSubscribe_loop (fuel : nat) (channel : bytes) (i : nat) (w : World)
  : Run World :=
  match fuel with
  | O => OutOfFuel
  | S fuel' =>
      let v := subscribe_channels_ (conn_ w) in
      if Nat.eqb i (length v) then Finished w
      else
        match nth_error v i with
        | None => Undefined OutOfBoundsRead
        | Some chan =>
            if bytes_eqb chan channel then
              UnSubscribe_loop fuel' channel (S i)
                (mkWorld
                   (with_pubsub (RegUnSubscribe channel (fd_ (conn_ w)))
                                (svr_ w))
                   (with_channels (erase i v) (conn_ w)))
            else UnSubscribe_loop fuel' channel (S i) w
        end
  end.

(** The iterator moves one place in every turn and the vector never grows:
    two turns more than the vector has elements are enough. *)
Definition UnSubscribeChannel (channel : bytes) (w : World) : Run World :=
  UnSubscribe_loop (2 + length (subscribe_channels_ (conn_ w))) channel 0 w.

(** ** [Request::ExecuteCommands] *)

(** [(arity > 0 && tokens != arity) || (arity < 0 && tokens < -arity)]. *)
Definition wrong_arity (arity tokens : Z) : bool :=
  ((0 <? arity) && negb (tokens =? arity))
  || ((arity <? 0) && (tokens <? - arity)).

(** The body of the [for] loop over [commands_] is cut in three, from
    the end of the body to its beginning.  [reply] is the string declared
    in front of the loop; it is handed to every [Execute] and lives on
    from one command to the next.  Every part answers with [reply] and
    the world at the [continue] or at the end of the body. *)

(** From [SetLastCmd] to the end of the body: the command is called. *)
Definition call_command (cmd : Commander) (cmd_tokens : list bytes)
           (reply : bytes) (w : World) : bytes * World :=
  let w :=
    mkWorld (with_stats (IncrCalls (Name cmd)) (svr_ w))
            (SetLastCmd (Name cmd) (conn_ w)) in
  let '(s, reply, duration, w) := Execute cmd cmd_tokens w reply in
  let w :=
    mkWorld (with_stats (IncrLatency duration (Name cmd))
               (SlowlogPushEntryIfNeeded cmd_tokens duration (svr_ w)))
            (conn_ w) in
  match s with
  | NotOK msg =>
      let w := Reply (Error (str "ERR " ++ msg)) w in
      (reply,
       mkWorld (log_error (str "Failed to execute redis command: "
                           ++ Name cmd ++ str ", err: " ++ msg) (svr_ w))
               (conn_ w))
  | OK => (reply, if bytes_eqb reply [] then w else Reply reply w)
  end.

(** From [SetArgs] on: the arguments are parsed, then the replica gate. *)
Definition parse_command (cmd : Commander) (cmd_tokens : list bytes)
           (reply : bytes) (w : World) : bytes * World :=
  match Parse cmd cmd_tokens with
  | NotOK msg => (reply, Reply (Error msg) w)
  | OK =>
      if slave_readonly (config_ (svr_ w)) && is_slave_ (svr_ w)
         && IsWrite cmd
      then
        (reply,
         Reply (Error (str
           "READONLY You can't write against a read only slave.")) w)
      else call_command cmd cmd_tokens reply w
  end.

(** The body behind the test of [kCloseAfterReply].  [front()] of an
    empty token vector is undefined.  [arity] is an [int]; its negation is
    taken in [Z]. *)
Definition process_command (cmd_tokens : list bytes) (reply : bytes)
           (w : World) : Run (bytes * World) :=
  match cmd_tokens with
  | [] => Undefined OutOfBoundsRead
  | front :: _ =>
      if bytes_eqb (ns_ (conn_ w)) []
         && negb (bytes_eqb (ToLower front) (str "auth"))
      then
        Finished (reply,
                  Reply (Error (str "NOAUTH Authentication required.")) w)
      else
        match LookupCommand front (repl_ (conn_ w)) with
        | None => Finished (reply, Reply (Error (str "ERR unknown command")) w)
        | Some cmd =>
            let w := mkWorld (svr_ w) (with_current_cmd cmd (conn_ w)) in
            let arity := GetArity cmd in
            let tokens := to_int (size cmd_tokens) in
            if wrong_arity arity tokens
            then
              Finished (reply,
                        Reply (Error (str "ERR wrong number of arguments")) w)
            else Finished (parse_command cmd cmd_tokens reply w)
        end
  end.

Fixpoint ExecuteCommands_loop (cmds : list (list bytes)) (reply : bytes)
         (w : World) : Run World :=
  match cmds with
  | [] => Finished w
  | cmd_tokens :: rest =>
      if IsFlagEnabled kCloseAfterReply (conn_ w) then Finished w
      else
        match process_command cmd_tokens reply w with
        | Finished (reply', w') => ExecuteCommands_loop rest reply' w'
        | Undefined f => Undefined f
        | OutOfFuel => OutOfFuel
        end
  end.

Definition clear_commands (r : Request) : Request :=
  mkRequest (state_ r) (multi_bulk_len_ r) (bulk_len_ r) (tokens_ r) [].

(** [Request::ExecuteCommands]: the request and the world after the call. *)
Definition ExecuteCommands (r : Request) (w : World) : Run (Request * World) :=
  match commands_ r with
  | [] => Finished (r, w)
  | _ :: _ =>
      if is_loading_ (svr_ w)
      then Finished (r, Reply (Error (str "replication in progress")) w)
      else
        match ExecuteCommands_loop (commands_ r) [] w with
        | Finished w' => Finished (clear_commands r, w')
        | Undefined f => Undefined f
        | OutOfFuel => OutOfFuel
        end
  end.

(** [Connection::OnRead] for the bytes [chunk] that arrived: the session
    owns the request [r] and the input buffer [input].  The time stamp of
    [SetLastInteraction] is left out. *)
Definition OnRead (chunk : bytes) (r : Request) (input : bytes) (w : World)
  : Run (Request * bytes * World) :=
  match Tokenize r (stats_ (svr_ w)) (input ++ chunk) with
  | Exhausted => OutOfFuel
  | Crashed f => Undefined f
  | Returned r' st' input' =>
      let w' := mkWorld (with_stats (fun _ => st') (svr_ w)) (conn_ w) in
      match ExecuteCommands r' w' with
      | Finished (r'', w'') => Finished (r'', input', w'')
      | Undefined f => Undefined f
      | OutOfFuel => OutOfFuel
      end
  end.

End Dispatch.

Arguments mkConnection {Commander}.
Arguments mkWorld {Commander}.
Arguments fd_ {Commander}.
Arguments flags_ {Commander}.
Arguments ns_ {Commander}.
Arguments repl_ {Commander}.
Arguments subscribe_channels_ {Commander}.
Arguments current_cmd_ {Commander}.
Arguments last_cmd_ {Commander}.
Arguments output_ {Commander}.
Arguments svr_ {Commander}.
Arguments conn_ {Commander}.
Arguments Reply {Commander}.
Arguments SetFlag {Commander}.
Arguments IsFlagEnabled {Commander}.
Arguments SubscribeChannel {Commander}.
Arguments UnSubscribe_loop {Commander}.
Arguments UnSubscribeChannel {Commander}.
Arguments with_channels {Commander}.
Arguments with_current_cmd {Commander}.

(** ** The decoder between its turns

    [Decoding d r st input]: the decoder can be in state [r], with [input]
    in the buffer, and [d] is the element count that the array header of
    the command in progress declared, as [Tokenize] read it.  The decoder
    starts fresh, bytes arrive between two calls, the dispatcher empties
    the batch between two calls, and the loop takes its turns. *)
Inductive Decoding : Z -> Request -> Stats -> bytes -> Prop :=
| Decoding_start st input :
    Decoding 0 new_request st input
| Decoding_arrival d r st input chunk :
    Decoding d r st input ->
    Decoding d r st (input ++ chunk)
| Decoding_dispatch d r st input :
    Decoding d r st input ->
    Decoding d (clear_commands r) st input
| Decoding_header d r st input line after n r' st' input' :
    Decoding d r st input ->
    state_ r = ArrayLen ->
    evbuffer_readln input = Some (line, after) ->
    array_len_of_line line = Some n ->
    Tokenize_step r st input = Progress r' st' input' ->
    Decoding n r' st' input'
| Decoding_element d r st input r' st' input' :
    Decoding d r st input ->
    state_ r <> ArrayLen ->
    Tokenize_step r st input = Progress r' st' input' ->
    Decoding d r' st' input'.

(** The batch a call of the decoder leaves, when it returns. *)
Definition batch_of (o : Outcome) : option (list (list bytes)) :=
  match o with
  | Returned r _ _ => Some (commands_ r)
  | _ => None
  end.

(** ** The wire format of a command

    An array header line [*<count>], then for every token a bulk header
    line [$<length>], the bytes of the token and the line terminator.
    This is the format the specification gives; the source has no encoder. *)

Definition digit_char (d : Z) : ascii := ascii_of_N (Z.to_N (48 + d)).

Fixpoint decimal_rev (fuel : nat) (n : Z) : bytes :=
  match fuel with
  | O => []
  | S fuel' =>
      digit_char (n mod 10)
      :: (if n / 10 =? 0 then [] else decimal_rev fuel' (n / 10))
  end.

(** The base-10 numeral of [n], most significant digit first. *)
Definition decimal (n : Z) : bytes :=
  rev (decimal_rev (S (Z.to_nat (Z.log2 n))) n).

(** The number a string of digits stands for. *)
Definition digits_value (ds : bytes) : Z :=
  fold_left (fun a c => a * 10 + (byte_val c - 48)) ds 0.

Definition encode_bulk (token : bytes) : bytes :=
  str "$" ++ decimal (size token) ++ CRLF ++ token ++ CRLF.

Definition encode_command (tokens : list bytes) : bytes :=
  str "*" ++ decimal (size tokens) ++ CRLF ++ flat_map encode_bulk tokens.

Definition encode_batch (cmds : list (list bytes)) : bytes :=
  flat_map encode_command cmds.

(** A command has at least one token, its count fits the signed counter
    and every token is a string that can be built. *)
Definition well_formed_command (tokens : list bytes) : bool :=
  (0 <? size tokens) && (size tokens <? 2 ^ 63)
  && forallb (fun t => size t <=? string_max_size) tokens.

Definition well_formed (cmds : list (list bytes)) : bool :=
  forallb well_formed_command cmds.

(** ** The rest of [Redis::Connection] *)

(** libevent: the bits of the [events] argument of an event callback. *)
Definition BEV_EVENT_EOF : Z := 16.
Definition BEV_EVENT_ERROR : Z := 32.
Definition BEV_EVENT_TIMEOUT : Z := 64.

(** What a callback of the session does outside the session.  Modelled
    from the spec: [Worker::RemoveConnection] is missing; the owner of the
    sessions is told the descriptor of the session to remove. *)
Inductive Effect :=
| LogBevError                 (* [LOG(ERROR) << "bev error: " ...] *)
| RemoveConnection (fd : Z)   (* [owner_->RemoveConnection(GetFD())] *)
| LogTimeout (fd : Z)         (* [LOG(INFO) << "timeout, fd=" ...] *)
| EnableReadWrite.            (* [bufferevent_enable(bev, EV_READ | EV_WRITE)] *)

Section Session.

Variable Commander : Type.
Variable kCloseAfterReply : Z.

(** [Connection::UnSubscribeAll]: the registry is told every channel, in
    the order of the vector, and the vector is cleared. *)
Definition UnSubscribeAll (w : World Commander) : World Commander :=
  match subscribe_channels_ (conn_ w) with
  | [] => w
  | _ :: _ =>
      mkWorld
        (fold_left
           (fun s chan => with_pubsub (RegUnSubscribe chan (fd_ (conn_ w))) s)
           (subscribe_channels_ (conn_ w)) (svr_ w))
        (with_channels [] (conn_ w))
  end.

(** [Connection::SubscriptionsCount]. *)
Definition SubscriptionsCount (w : World Commander) : Z :=
  to_int (size (subscribe_channels_ (conn_ w))).

(** [Connection::OnWrite]. *)
Definition OnWrite (c : Connection Commander) : list Effect :=
  if IsFlagEnabled kCloseAfterReply c then [RemoveConnection (fd_ c)] else [].

(** [Connection::OnEvent]; [events] is a [short], promoted to [int] for
    [&].  The two [DLOG] lines are left out. *)
Definition OnEvent (events : Z) (c : Connection Commander) : list Effect :=
  (if Z.eqb (Z.land events BEV_EVENT_ERROR) 0 then [] else [LogBevError])
  ++ (if negb (Z.eqb (Z.land events
                             (Z.lor BEV_EVENT_EOF BEV_EVENT_ERROR)) 0)
      then [RemoveConnection (fd_ c)]
      else if negb (Z.eqb (Z.land events BEV_EVENT_TIMEOUT) 0)
           then [LogTimeout (fd_ c); EnableReadWrite]
           else []).

(** Subscriptions one after the other. *)
Definition subscribe_each (channels : list bytes) (w : World Commander)
  : World Commander :=
  fold_left (fun w channel => SubscribeChannel channel w) channels w.

End Session.

Arguments UnSubscribeAll {Commander}.
Arguments SubscriptionsCount {Commander}.
Arguments OnWrite {Commander}.
Arguments OnEvent {Commander}.
Arguments subscribe_each {Commander}.

(** The two time stamps of [Connection], in seconds ([time_t]); [now] is
    what [time] answers at the call. *)
Record Times := mkTimes { create_time_ : Z; last_interaction_ : Z }.

(** The constructor [Connection::Connection]. *)
Definition new_times (now : Z) : Times := mkTimes now now.

(** [Connection::SetLastInteraction]. *)
Definition SetLastInteraction (now : Z) (t : Times) : Times :=
  mkTimes (create_time_ t) now.

(** [Connection::GetAge] and [Connection::GetIdleTime]: the difference is
    converted to [uint64_t]. *)
Definition GetAge (now : Z) (t : Times) : Z := wrap64 (now - create_time_ t).

Definition GetIdleTime (now : Z) (t : Times) : Z :=
  wrap64 (now - last_interaction_ t).

(** The time stamps after the read events at the times [reads]. *)
Definition after_reads (reads : list Z) (t : Times) : Times :=
  fold_left (fun t now => SetLastInteraction now t) reads t.

(** The number of header lines in the encoding of a batch. *)
Definition header_lines (cmds : list (list bytes)) : Z :=
  fold_right (fun c n => 1 + size c + n) 0 cmds.

(** The header lines read so far for the command in progress: one for
    every token, and the lines read since the last token. *)
Definition pending_header_lines (r : Request) : Z :=
  size (tokens_ r)
  + match state_ r with ArrayLen => 0 | BulkLen => 1 | BulkData => 2 end.

(** What turns of the decoder from [r], [st], [input] to [r'], [st'],
    [input'] did: the bytes [consumed] are gone from the front of the
    buffer, the commands [new] are at the end of the batch, every one of
    them with a token, only the inbound counter moved, by the bytes
    consumed less two for every header line read. *)
Definition turns_account (r : Request) (st : Stats) (input : bytes)
           (r' : Request) (st' : Stats) (input' : bytes)
           (consumed : bytes) (new : list (list bytes)) : Prop :=
  input = consumed ++ input'
  /\ commands_ r' = commands_ r ++ new
  /\ Forall (fun c => c <> []) new
  /\ outbound_bytes st' = outbound_bytes st
  /\ calls st' = calls st
  /\ latencies st' = latencies st
  /\ inbound_bytes st <= inbound_bytes st' <= inbound_bytes st + size consumed
  /\ inbound_bytes st'
     = inbound_bytes st + size consumed
       - 2 * (header_lines new + pending_header_lines r'
              - pending_header_lines r).

(** The bytes counted as sent that are not in the output buffer. *)
Definition outbound_gap {Commander : Type} (w : World Commander) : Z :=
  outbound_bytes (stats_ (svr_ w)) - size (output_ (conn_ w)).

(** ** A command table for the examples

    Four commands with the arities and the classification of the Redis
    commands of the same names. *)
Module Demo.

Inductive Command := Auth | Get | Set_ | Del.

Definition kCloseAfterReply : Z := 64.

Definition LookupCommand (name : bytes) (is_repl : bool) : option Command :=
  let n := ToLower name in
  if bytes_eqb n (str "auth") then Some Auth
  else if bytes_eqb n (str "get") then Some Get
  else if bytes_eqb n (str "set") then Some Set_
  else if bytes_eqb n (str "del") then Some Del
  else None.

Definition GetArity (c : Command) : Z :=
  match c with Auth => 2 | Get => 2 | Set_ => 3 | Del => -2 end.

Definition IsWrite (c : Command) : bool :=
  match c with Auth | Get => false | Set_ | Del => true end.

Definition Name (c : Command) : bytes :=
  match c with
  | Auth => str "auth" | Get => str "get" | Set_ => str "set"
  | Del => str "del"
  end.

Definition Parse (c : Command) (tokens : list bytes) : Status := OK.

Definition set_namespace (ns : bytes) (c : Connection Command)
  : Connection Command :=
  mkConnection (fd_ c) (flags_ c) ns (repl_ c)
               (subscribe_channels_ c) (current_cmd_ c) (last_cmd_ c)
               (output_ c).

Definition Execute (c : Command) (tokens : list bytes) (w : World Command)
           (reply : bytes) : Status * bytes * Z * World Command :=
  match c with
  | Auth =>
      (OK, str "+OK" ++ CRLF, 1,
       mkWorld (svr_ w) (set_namespace (nth 1 tokens []) (conn_ w)))
  | Get => (OK, str "$-1" ++ CRLF, 1, w)
  | Set_ => (OK, str "+OK" ++ CRLF, 1, w)
  | Del => (OK, str ":0" ++ CRLF, 1, w)
  end.

Definition ExecuteCommands :=
  ExecuteCommands Command kCloseAfterReply LookupCommand GetArity IsWrite
                  Name Parse Execute.

Definition OnRead :=
  OnRead Command kCloseAfterReply LookupCommand GetArity IsWrite Name Parse
         Execute.

Definition loop :=
  ExecuteCommands_loop Command kCloseAfterReply LookupCommand GetArity
                       IsWrite Name Parse Execute.

Definition server (loading slave readonly : bool) : Server :=
  mkServer new_stats loading slave (mkConfig readonly) [] [] [].

Definition session (ns : bytes) (channels : list bytes) : Connection Command :=
  mkConnection 7 0 ns false channels None [] [].

Definition set_loading (b : bool) (w : World Command) : World Command :=
  mkWorld (mkServer (stats_ (svr_ w)) b (is_slave_ (svr_ w))
                    (config_ (svr_ w)) (pubsub_ (svr_ w))
                    (slowlog_ (svr_ w)) (errors_ (svr_ w)))
          (conn_ w).

(** A session before [auth], a session after it, the same on a read-only
    replica, and on a server that loads. *)
Definition guest : World Command :=
  mkWorld (server false false false) (session [] []).

Definition user : World Command :=
  mkWorld (server false false false) (session (str "ns") []).


Definition user_while_loading : World Command :=
  mkWorld (server true false false) (session (str "ns") []).

Definition subscriber (channels : list bytes) : World Command :=
  mkWorld (server false false false) (session (str "ns") channels).

End Demo.

(** ** A second command table for the examples

    A command that answers by its [reply] string, one that writes its
    answer itself and leaves the [reply] string alone, and one that asks
    for the session to be closed. *)
Module Pipeline.

Inductive Command := Ping | Subscribe | Quit.

Definition kCloseAfterReply : Z := 64.

Definition LookupCommand (name : bytes) (is_repl : bool) : option Command :=
  let n := ToLower name in
  if bytes_eqb n (str "ping") then Some Ping
  else if bytes_eqb n (str "subscribe") then Some Subscribe
  else if bytes_eqb n (str "quit") then Some Quit
  else None.

Definition GetArity (c : Command) : Z :=
  match c with Ping => -1 | Subscribe => -2 | Quit => -1 end.

Definition IsWrite (c : Command) : bool := false.

Definition Name (c : Command) : bytes :=
  match c with
  | Ping => str "ping" | Subscribe => str "subscribe" | Quit => str "quit"
  end.

Definition Parse (c : Command) (tokens : list bytes) : Status := OK.

Definition Execute (c : Command) (tokens : list bytes) (w : World Command)
           (reply : bytes) : Status * bytes * Z * World Command :=
  match c with
  | Ping => (OK, str "+PONG" ++ CRLF, 1, w)
  | Subscribe =>
      (OK, reply, 1,
       Reply (str ":1" ++ CRLF) (SubscribeChannel (nth 1 tokens []) w))
  | Quit =>
      (OK, str "+OK" ++ CRLF, 1,
       mkWorld (svr_ w) (SetFlag kCloseAfterReply (conn_ w)))
  end.

Definition loop :=
  ExecuteCommands_loop Command kCloseAfterReply LookupCommand GetArity
                       IsWrite Name Parse Execute.

Definition ExecuteCommands :=
  ExecuteCommands Command kCloseAfterReply LookupCommand GetArity IsWrite
                  Name Parse Execute.

Definition user : World Command :=
  mkWorld (mkServer new_stats false false (mkConfig false) [] [] [])
          (mkConnection 7 0 (str "ns") false [] None [] []).

End Pipeline.

(** * Properties *)

Example decode_get_foo :
  Tokenize new_request new_stats (wire ["*2"; "$3"; "GET"; "$3"; "foo"]%string)
  = Returned (mkRequest ArrayLen 0 3 []
                [[list_ascii_of_string "GET"; list_ascii_of_string "foo"]])
             (mkStats 16 0 [] []) [].
Proof. vm_compute. reflexivity. Qed.

(** The same bytes on a session that did not authenticate. *)
Example get_foo_without_auth :
  exists r w,
    Demo.OnRead (wire ["*2"; "$3"; "GET"; "$3"; "foo"]%string) new_request []
                Demo.guest
    = Finished (r, [], w)
    /\ output_ (conn_ w) = str "-NOAUTH Authentication required." ++ CRLF
    /\ calls (stats_ (svr_ w)) = [] /\ commands_ r = [].
Proof.
  do 2 eexists. split; [vm_compute; reflexivity|]. repeat split.
Qed.

(** ** Bytes and lines *)

Lemma byte_val_inj (c d : ascii) : byte_val c = byte_val d -> c = d.
Proof.
  unfold byte_val. intros H. apply N2Z.inj in H.
  rewrite <- (ascii_N_embedding c), <- (ascii_N_embedding d).
  now rewrite H.
Qed.

Lemma is_byte_eq (n : Z) (c : ascii) :
  is_byte n c = true -> c = ascii_of_N (Z.to_N n).
Proof.
  unfold is_byte. intros H. apply Z.eqb_eq in H.
  unfold byte_val in H. rewrite <- H, N2Z.id. symmetry. apply ascii_N_embedding.
Qed.

Lemma size_app {A : Type} (a b : list A) : size (a ++ b) = size a + size b.
Proof. unfold size. rewrite length_app. lia. Qed.

Lemma size_cons {A : Type} (x : A) (l : list A) : size (x :: l) = 1 + size l.
Proof. unfold size. cbn [length]. lia. Qed.

Lemma size_nil {A : Type} : size (@nil A) = 0.
Proof. reflexivity. Qed.

Lemma size_nonneg {A : Type} (a : list A) : 0 <= size a.
Proof. unfold size. lia. Qed.

Lemma readln_unfold (c d : ascii) (rest : bytes) :
  evbuffer_readln (c :: d :: rest)
  = if is_byte 13 c && is_byte 10 d then Some ([], rest)
    else match evbuffer_readln (d :: rest) with
         | Some (line, after) => Some (c :: line, after)
         | None => None
         end.
Proof. reflexivity. Qed.

(** A line that was read is in front of the buffer, with its terminator. *)
Lemma readln_split (input line after : bytes) :
  evbuffer_readln input = Some (line, after) ->
  input = line ++ CRLF ++ after.
Proof.
  revert line after.
  induction input as [|c rest IH]; intros line after H; [discriminate|].
  destruct rest as [|d rest']; [discriminate|].
  rewrite readln_unfold in H.
  destruct (is_byte 13 c && is_byte 10 d) eqn:E.
  - apply andb_prop in E. destruct E as [E1 E2].
    apply is_byte_eq in E1. apply is_byte_eq in E2.
    injection H as <- <-. now subst.
  - destruct (evbuffer_readln (d :: rest')) as [[l a]|] eqn:R; [|discriminate].
    injection H as <- <-. simpl. f_equal. now apply IH.
Qed.

(** Bytes that arrive behind a complete line do not change the line. *)
Lemma readln_app (input line after more : bytes) :
  evbuffer_readln input = Some (line, after) ->
  evbuffer_readln (input ++ more) = Some (line, after ++ more).
Proof.
  revert line after.
  induction input as [|c rest IH]; intros line after H; [discriminate|].
  destruct rest as [|d rest']; [discriminate|].
  simpl app. rewrite readln_unfold in *.
  destruct (is_byte 13 c && is_byte 10 d).
  - now injection H as <- <-.
  - destruct (evbuffer_readln (d :: rest')) as [[l a]|] eqn:R; [|discriminate].
    injection H as <- <-.
    change (d :: rest' ++ more) with ((d :: rest') ++ more).
    now rewrite (IH l a eq_refl).
Qed.

(** A line without CR is read back whole. *)
Lemma readln_line (line after : bytes) :
  forallb (fun c => negb (is_byte 13 c)) line = true ->
  evbuffer_readln (line ++ CRLF ++ after) = Some (line, after).
Proof.
  induction line as [|c line IH]; intros H.
  - reflexivity.
  - simpl in H. apply andb_prop in H. destruct H as [Hc Hl].
    apply negb_true_iff in Hc.
    specialize (IH Hl).
    change ((c :: line) ++ CRLF ++ after) with (c :: (line ++ CRLF ++ after)).
    destruct (line ++ CRLF ++ after) as [|d t] eqn:E; [discriminate|].
    rewrite readln_unfold, Hc, IH. reflexivity.
Qed.

(** ** One turn of the loop *)

(** A turn that goes on drains at least two bytes. *)
Lemma step_consumes r st input r' st' input' :
  Tokenize_step r st input = Progress r' st' input' ->
  (length input' + 2 <= length input)%nat.
Proof.
  intros H. unfold Tokenize_step in H.
  destruct (state_ r).
  - destruct (evbuffer_readln input) as [[line after]|] eqn:R; [|discriminate].
    destruct (array_len_of_line line); [|discriminate].
    injection H as _ _ <-. apply readln_split in R. subst input.
    rewrite !length_app. simpl. lia.
  - destruct (evbuffer_readln input) as [[line after]|] eqn:R; [|discriminate].
    destruct (bulk_len_of_line line); [|discriminate].
    injection H as _ _ <-. apply readln_split in R. subst input.
    rewrite !length_app. simpl. lia.
  - cbv zeta in H.
    destruct (size input <? wrap64 (Z.of_N (bulk_len_ r) + 2)) eqn:E1;
      [discriminate|].
    destruct (string_max_size <? Z.of_N (bulk_len_ r)) eqn:E2; [discriminate|].
    apply Z.ltb_ge in E1. apply Z.ltb_ge in E2. unfold string_max_size in E2.
    unfold wrap64 in E1. rewrite Z.mod_small in E1 by lia.
    assert (length input' = (length input - Z.to_nat (Z.of_N (bulk_len_ r) + 2))%nat)
      as ->.
    { destruct (multi_bulk_len_ r =? INT64_MIN); [discriminate|].
      destruct (multi_bulk_len_ r - 1 <=? 0);
        injection H as _ _ <-; apply length_skipn. }
    unfold size in E1. lia.
Qed.

(** Bytes that arrive behind the buffer do not change a turn that goes on. *)
Lemma step_app r st input r' st' input' more :
  Tokenize_step r st input = Progress r' st' input' ->
  Tokenize_step r st (input ++ more) = Progress r' st' (input' ++ more).
Proof.
  intros H. unfold Tokenize_step in *.
  destruct (state_ r).
  - destruct (evbuffer_readln input) as [[line after]|] eqn:R; [|discriminate].
    rewrite (readln_app _ _ _ more R).
    destruct (array_len_of_line line); [|discriminate].
    now injection H as <- <- <-.
  - destruct (evbuffer_readln input) as [[line after]|] eqn:R; [|discriminate].
    rewrite (readln_app _ _ _ more R).
    destruct (bulk_len_of_line line); [|discriminate].
    now injection H as <- <- <-.
  - cbv zeta in *.
    destruct (size input <? wrap64 (Z.of_N (bulk_len_ r) + 2)) eqn:E1;
      [discriminate|].
    destruct (string_max_size <? Z.of_N (bulk_len_ r)) eqn:E2; [discriminate|].
    apply Z.ltb_ge in E1. apply Z.ltb_ge in E2. unfold string_max_size in E2.
    assert (W : wrap64 (Z.of_N (bulk_len_ r) + 2) = Z.of_N (bulk_len_ r) + 2)
      by (unfold wrap64; apply Z.mod_small; lia).
    rewrite W in *.
    assert ((size (input ++ more) <? Z.of_N (bulk_len_ r) + 2) = false) as ->.
    { apply Z.ltb_ge. rewrite size_app. pose proof (size_nonneg more). lia. }
    unfold size in E1.
    rewrite firstn_app, skipn_app.
    replace (Z.to_nat (Z.of_N (bulk_len_ r)) - length input)%nat with O by lia.
    replace (Z.to_nat (Z.of_N (bulk_len_ r) + 2) - length input)%nat
      with O by lia.
    rewrite firstn_O, app_nil_r. simpl skipn.
    destruct (multi_bulk_len_ r =? INT64_MIN); [discriminate|].
    destruct (multi_bulk_len_ r - 1 <=? 0); now injection H as <- <- <-.
Qed.

(** Nor do they change a turn that leaves the defined behaviour. *)
Lemma step_abort_app r st input f more :
  Tokenize_step r st input = Abort f ->
  Tokenize_step r st (input ++ more) = Abort f.
Proof.
  intros H. unfold Tokenize_step in *.
  destruct (state_ r).
  - destruct (evbuffer_readln input) as [[line after]|] eqn:R; [|discriminate].
    rewrite (readln_app _ _ _ more R).
    destruct (array_len_of_line line); [discriminate|]. exact H.
  - destruct (evbuffer_readln input) as [[line after]|] eqn:R; [|discriminate].
    rewrite (readln_app _ _ _ more R).
    destruct (bulk_len_of_line line); [discriminate|]. exact H.
  - cbv zeta in *.
    destruct (size input <? wrap64 (Z.of_N (bulk_len_ r) + 2)) eqn:E1;
      [discriminate|].
    apply Z.ltb_ge in E1.
    assert ((size (input ++ more) <? wrap64 (Z.of_N (bulk_len_ r) + 2))
            = false) as ->.
    { apply Z.ltb_ge. rewrite size_app. pose proof (size_nonneg more). lia. }
    destruct (string_max_size <? Z.of_N (bulk_len_ r)) eqn:E2; [exact H|].
    destruct (multi_bulk_len_ r =? INT64_MIN); [exact H|].
    destruct (multi_bulk_len_ r - 1 <=? 0); discriminate.
Qed.

(** ** The loop: enough turns, and resumption *)

Lemma loop_fuel (n m : nat) r st input :
  (length input < n)%nat -> (length input < m)%nat ->
  Tokenize_loop n r st input = Tokenize_loop m r st input.
Proof.
  revert m r st input.
  induction n as [|n IH]; intros m r st input Hn Hm; [lia|].
  destruct m as [|m]; [lia|]. simpl.
  destruct (Tokenize_step r st input) as [|f|r' st' input'] eqn:E;
    try reflexivity.
  apply step_consumes in E. apply IH; lia.
Qed.

Lemma Tokenize_unfold r st input :
  Tokenize r st input
  = match Tokenize_step r st input with
    | Suspend => Returned r st input
    | Abort f => Crashed f
    | Progress r' st' input' => Tokenize r' st' input'
    end.
Proof.
  unfold Tokenize at 1. simpl.
  destruct (Tokenize_step r st input) as [|f|r' st' input'] eqn:E;
    try reflexivity.
  apply step_consumes in E. unfold Tokenize. apply loop_fuel; lia.
Qed.

(** The loop always returns: the bound on the turns is never met. *)
Lemma Tokenize_total r st input : Tokenize r st input <> Exhausted.
Proof.
  remember (length input) as n eqn:Hn.
  revert r st input Hn.
  induction n as [n IH] using lt_wf_ind. intros r st input ->.
  rewrite Tokenize_unfold.
  destruct (Tokenize_step r st input) as [|f|r' st' input'] eqn:E;
    try discriminate.
  apply step_consumes in E. apply (IH (length input')); [lia|reflexivity].
Qed.

(** Where the loop returns, the state it returns needs more input. *)
Lemma Tokenize_rests r st input r' st' input' :
  Tokenize r st input = Returned r' st' input' ->
  Tokenize_step r' st' input' = Suspend.
Proof.
  remember (length input) as n eqn:Hn.
  revert r st input Hn.
  induction n as [n IH] using lt_wf_ind. intros r st input -> H.
  rewrite Tokenize_unfold in H.
  destruct (Tokenize_step r st input) as [|f|r1 st1 input1] eqn:E;
    try discriminate.
  - now injection H as <- <- <-.
  - apply step_consumes in E as L.
    apply (IH (length input1)) with (r := r1) (st := st1) (input := input1);
      [lia|reflexivity|exact H].
Qed.

(** Resumption: what one call does on the whole input, a call on its
    beginning and a second call on the rest do too. *)
Lemma Tokenize_resume r st input more :
  Tokenize r st (input ++ more)
  = match Tokenize r st input with
    | Returned r' st' input' => Tokenize r' st' (input' ++ more)
    | bad => bad
    end.
Proof.
  remember (length input) as n eqn:Hn.
  revert r st input Hn.
  induction n as [n IH] using lt_wf_ind. intros r st input ->.
  rewrite (Tokenize_unfold r st input).
  destruct (Tokenize_step r st input) as [|f|r1 st1 input1] eqn:E.
  - reflexivity.
  - rewrite Tokenize_unfold, (step_abort_app _ _ _ _ more E). reflexivity.
  - rewrite Tokenize_unfold, (step_app _ _ _ _ _ _ more E).
    apply step_consumes in E. apply (IH (length input1)); [lia|reflexivity].
Qed.

Lemma deliver_concat chunks r st input :
  Tokenize_step r st input = Suspend ->
  deliver r st input chunks = Tokenize r st (input ++ concat chunks).
Proof.
  revert r st input.
  induction chunks as [|chunk more IH]; intros r st input H.
  - simpl. rewrite app_nil_r, Tokenize_unfold, H. reflexivity.
  - simpl. rewrite app_assoc, (Tokenize_resume r st (input ++ chunk)).
    destruct (Tokenize r st (input ++ chunk)) as [r' st' input'| |] eqn:E;
      try reflexivity.
    apply IH. now apply Tokenize_rests in E.
Qed.

(** ** Numerals *)

Lemma digit_char_spec (d : Z) :
  0 <= d < 10 ->
  isdigit (digit_char d) = true /\ byte_val (digit_char d) = 48 + d.
Proof.
  intros H.
  assert (d = 0 \/ d = 1 \/ d = 2 \/ d = 3 \/ d = 4 \/ d = 5 \/ d = 6
          \/ d = 7 \/ d = 8 \/ d = 9) as C by lia.
  repeat destruct C as [-> | C]; try subst d; split; reflexivity.
Qed.

Lemma isdigit_not_other (c : ascii) :
  isdigit c = true ->
  isspace c = false /\ is_byte 45 c = false /\ is_byte 43 c = false
  /\ is_byte 13 c = false.
Proof.
  unfold isdigit, isspace, is_byte. cbv zeta. intros H.
  apply andb_prop in H. destruct H as [H1 H2].
  apply Z.leb_le in H1. apply Z.leb_le in H2.
  repeat split.
  - apply orb_false_iff. split; [apply Z.eqb_neq; lia|].
    apply andb_false_iff. right. apply Z.leb_gt. lia.
  - apply Z.eqb_neq. lia.
  - apply Z.eqb_neq. lia.
  - apply Z.eqb_neq. lia.
Qed.

Lemma scan_digits_app (ds tail : bytes) (acc : Z) :
  forallb isdigit ds = true ->
  scan_digits acc (ds ++ tail)
  = scan_digits (fold_left (fun a c => a * 10 + (byte_val c - 48)) ds acc) tail.
Proof.
  revert acc. induction ds as [|c ds IH]; intros acc H; [reflexivity|].
  simpl in H. apply andb_prop in H. destruct H as [Hc Hds].
  simpl. rewrite Hc. now apply IH.
Qed.

Lemma decimal_rev_spec (fuel : nat) (n : Z) :
  (0 < fuel)%nat -> 0 <= n < 2 ^ Z.of_nat fuel ->
  forallb isdigit (decimal_rev fuel n) = true
  /\ digits_value (rev (decimal_rev fuel n)) = n
  /\ decimal_rev fuel n <> [].
Proof.
  revert n. induction fuel as [|fuel IH]; intros n Hf H.
  - lia.
  - assert (D : 0 <= n mod 10 < 10) by (apply Z.mod_pos_bound; lia).
    destruct (digit_char_spec _ D) as [D1 D2].
    simpl decimal_rev.
    destruct (n / 10 =? 0) eqn:E.
    + apply Z.eqb_eq in E. simpl. rewrite D1. repeat split; try discriminate.
      unfold digits_value. simpl. rewrite D2.
      pose proof (Z.div_mod n 10). lia.
    + apply Z.eqb_neq in E.
      assert (B : 0 <= n / 10 < 2 ^ Z.of_nat fuel).
      { rewrite Nat2Z.inj_succ, Z.pow_succ_r in H by lia.
        split; [apply Z.div_pos; lia|].
        apply Z.div_lt_upper_bound; lia. }
      assert (F : (0 < fuel)%nat).
      { destruct fuel; [simpl in B; lia | lia]. }
      destruct (IH _ F B) as (I1 & I2 & _).
      repeat split; try discriminate.
      * simpl. now rewrite D1.
      * unfold digits_value in *. simpl rev. rewrite fold_left_app. simpl.
        rewrite I2, D2. pose proof (Z.div_mod n 10). lia.
Qed.

Lemma decimal_spec (n : Z) :
  0 <= n ->
  forallb isdigit (decimal n) = true /\ digits_value (decimal n) = n
  /\ decimal n <> [].
Proof.
  intros H. unfold decimal.
  assert (B : 0 <= n < 2 ^ Z.of_nat (S (Z.to_nat (Z.log2 n)))).
  { split; [exact H|].
    rewrite Nat2Z.inj_succ, Z2Nat.id by apply Z.log2_nonneg.
    destruct (Z.eq_dec n 0) as [->|Hn]; [reflexivity|].
    apply Z.log2_spec. lia. }
  destruct (decimal_rev_spec _ _ (Nat.lt_0_succ _) B) as (H1 & H2 & H3).
  repeat split.
  - rewrite forallb_forall in *. intros c Hc. apply H1. now apply in_rev.
  - exact H2.
  - intros E. apply H3. apply (f_equal (@rev ascii)) in E.
    now rewrite rev_involutive in E.
Qed.

(** [strtoull] reads a numeral back, up to [ULLONG_MAX]. *)
Lemma strtoull_decimal (n : Z) (tail : bytes) :
  0 <= n ->
  strtoull (decimal n ++ NUL :: tail)
  = Some (if ULLONG_MAX <? n then ULLONG_MAX else n).
Proof.
  intros H. destruct (decimal_spec n H) as (H1 & H2 & H3).
  pose proof (scan_digits_app (decimal n) (NUL :: tail) 0 H1) as S.
  fold (digits_value (decimal n)) in S. rewrite H2 in S.
  destruct (decimal n) as [|c ds]; [congruence|].
  simpl in H1. apply andb_prop in H1. destruct H1 as [Hc _].
  destruct (isdigit_not_other c Hc) as (A1 & A2 & A3 & _).
  unfold strtoull. simpl app. simpl skip_space. rewrite A1, A2, A3.
  simpl orb. cbv iota. simpl app in S. rewrite S. reflexivity.
Qed.

Lemma header_line_no_cr (c : ascii) (n : Z) :
  0 <= n -> is_byte 13 c = false ->
  forallb (fun c => negb (is_byte 13 c)) (c :: decimal n) = true.
Proof.
  intros H Hc. simpl. rewrite Hc. simpl.
  destruct (decimal_spec n H) as (H1 & _).
  rewrite forallb_forall in *. intros d Hd.
  destruct (isdigit_not_other d (H1 d Hd)) as (_ & _ & _ & A). now rewrite A.
Qed.

Lemma array_len_of_header (n : Z) :
  0 <= n < 2 ^ 63 ->
  array_len_of_line (str "*" ++ decimal n) = Some n.
Proof.
  intros H. unfold array_len_of_line.
  assert ((0 <? size (str "*" ++ decimal n)) = true) as ->.
  { apply Z.ltb_lt. unfold size. simpl. lia. }
  unfold c_str. simpl. rewrite strtoull_decimal by lia.
  assert ((ULLONG_MAX <? n) = false) as ->
      by (apply Z.ltb_ge; unfold ULLONG_MAX; lia).
  simpl. f_equal. unfold to_int64, wrap64.
  rewrite Z.mod_small by lia.
  destruct (n <? 2 ^ 63) eqn:E; [reflexivity|]. apply Z.ltb_ge in E. lia.
Qed.

Lemma bulk_len_of_header (n : Z) :
  0 <= n < 2 ^ 64 ->
  bulk_len_of_line (str "$" ++ decimal n) = Some (Z.to_N n).
Proof.
  intros H. unfold bulk_len_of_line, c_str. simpl.
  rewrite strtoull_decimal by lia.
  assert ((ULLONG_MAX <? n) = false) as ->
      by (apply Z.ltb_ge; unfold ULLONG_MAX; lia).
  reflexivity.
Qed.

(** ** The decoder on the wire format *)

Lemma step_array_header r st (n : Z) (rest : bytes) :
  state_ r = ArrayLen -> 0 <= n < 2 ^ 63 ->
  Tokenize_step r st (str "*" ++ decimal n ++ CRLF ++ rest)
  = Progress (mkRequest BulkLen n (bulk_len_ r) (tokens_ r) (commands_ r))
             (IncrInbondBytes (size (str "*" ++ decimal n)) st) rest.
Proof.
  intros S H. unfold Tokenize_step. rewrite S.
  rewrite (app_assoc (str "*")).
  rewrite readln_line
    by (apply header_line_no_cr; [lia | reflexivity]).
  now rewrite array_len_of_header.
Qed.

Lemma step_bulk_header r st (n : Z) (rest : bytes) :
  state_ r = BulkLen -> 0 <= n < 2 ^ 64 ->
  Tokenize_step r st (str "$" ++ decimal n ++ CRLF ++ rest)
  = Progress (mkRequest BulkData (multi_bulk_len_ r) (Z.to_N n) (tokens_ r)
                        (commands_ r))
             (IncrInbondBytes (size (str "$" ++ decimal n)) st) rest.
Proof.
  intros S H. unfold Tokenize_step. rewrite S.
  rewrite (app_assoc (str "$")).
  rewrite readln_line
    by (apply header_line_no_cr; [lia | reflexivity]).
  now rewrite bulk_len_of_header.
Qed.

Lemma step_bulk_data r st (token rest : bytes) :
  state_ r = BulkData -> bulk_len_ r = Z.to_N (size token) ->
  size token <= string_max_size -> multi_bulk_len_ r <> INT64_MIN ->
  Tokenize_step r st (token ++ CRLF ++ rest)
  = if multi_bulk_len_ r - 1 <=? 0
    then Progress (mkRequest ArrayLen (multi_bulk_len_ r - 1) (bulk_len_ r) []
                             (commands_ r ++ [tokens_ r ++ [token]]))
                  (IncrInbondBytes (size token + 2) st) rest
    else Progress (mkRequest BulkLen (multi_bulk_len_ r - 1) (bulk_len_ r)
                             (tokens_ r ++ [token]) (commands_ r))
                  (IncrInbondBytes (size token + 2) st) rest.
Proof.
  intros S B H M. unfold Tokenize_step. rewrite S. cbv zeta.
  pose proof (size_nonneg token) as P. unfold string_max_size in H.
  rewrite B, Z2N.id by exact P.
  unfold wrap64. rewrite Z.mod_small by lia.
  assert ((size (token ++ CRLF ++ rest) <? size token + 2) = false) as ->.
  { apply Z.ltb_ge. rewrite !size_app. pose proof (size_nonneg rest).
    change (size CRLF) with 2. lia. }
  assert ((string_max_size <? size token) = false) as ->
      by (apply Z.ltb_ge; unfold string_max_size; lia).
  assert ((multi_bulk_len_ r =? INT64_MIN) = false) as ->
      by now apply Z.eqb_neq.
  assert (firstn (Z.to_nat (size token)) (token ++ CRLF ++ rest) = token) as ->.
  { unfold size. rewrite Nat2Z.id, firstn_app, Nat.sub_diag, firstn_all.
    simpl. apply app_nil_r. }
  assert (skipn (Z.to_nat (size token + 2)) (token ++ CRLF ++ rest) = rest)
    as ->.
  { replace (Z.to_nat (size token + 2)) with (length token + 2)%nat
      by (unfold size; lia).
    rewrite skipn_app, skipn_all2 by lia.
    replace (length token + 2 - length token)%nat with 2%nat by lia.
    reflexivity. }
  reflexivity.
Qed.

(** The bulk elements of a command, from the first bulk header on. *)
Lemma decode_bulks (tokens : list bytes) :
  forall r st rest,
    state_ r = BulkLen -> multi_bulk_len_ r = size tokens ->
    tokens <> [] -> size tokens < 2 ^ 63 ->
    forallb (fun t => size t <=? string_max_size) tokens = true ->
    exists r' st',
      Tokenize r st (flat_map encode_bulk tokens ++ rest) = Tokenize r' st' rest
      /\ state_ r' = ArrayLen /\ tokens_ r' = []
      /\ commands_ r' = commands_ r ++ [tokens_ r ++ tokens].
Proof.
  induction tokens as [|t more IH]; intros r st rest S M N B F; [congruence|].
  cbn [forallb] in F. apply andb_prop in F. destruct F as [Ft Fmore].
  apply Z.leb_le in Ft. pose proof (size_nonneg t) as Pt.
  assert (Ft' := Ft). unfold string_max_size in Ft'.
  cbn [flat_map]. unfold encode_bulk at 1.
  rewrite <- !app_assoc.
  rewrite Tokenize_unfold, step_bulk_header by (try exact S; lia).
  set (r1 := mkRequest BulkData _ _ _ _).
  assert (M1 : multi_bulk_len_ r1 = 1 + size more).
  { subst r1. cbn [multi_bulk_len_]. rewrite M. apply size_cons. }
  pose proof (size_nonneg more) as Pm.
  rewrite size_cons in B.
  rewrite Tokenize_unfold, step_bulk_data
    by (try reflexivity; try lia; rewrite M1; unfold INT64_MIN; lia).
  destruct (multi_bulk_len_ r1 - 1 <=? 0) eqn:E.
  - apply Z.leb_le in E.
    assert (more = []) as ->.
    { destruct more as [|t' more']; [reflexivity|].
      rewrite size_cons in M1. pose proof (size_nonneg more'). lia. }
    cbn [flat_map app]. eexists _, _. split; [reflexivity|].
    subst r1. cbn. repeat split.
  - apply Z.leb_gt in E.
    set (r2 := mkRequest BulkLen _ _ _ _).
    destruct (IH r2 (IncrInbondBytes (size t + 2)
                       (IncrInbondBytes (size (str "$" ++ decimal (size t))) st))
                 rest)
      as (r' & st' & T & S' & T' & C').
    + reflexivity.
    + subst r2. cbn [multi_bulk_len_]. lia.
    + intros ->. change (size (@nil bytes)) with 0 in M1. lia.
    + lia.
    + exact Fmore.
    + exists r', st'. rewrite T. repeat split; try assumption.
      rewrite C'. subst r2 r1. cbn. now rewrite <- app_assoc.
Qed.

(** A whole command, from the array header on. *)
Lemma decode_command (tokens : list bytes) r st rest :
  state_ r = ArrayLen -> tokens_ r = [] ->
  well_formed_command tokens = true ->
  exists r' st',
    Tokenize r st (encode_command tokens ++ rest) = Tokenize r' st' rest
    /\ state_ r' = ArrayLen /\ tokens_ r' = []
    /\ commands_ r' = commands_ r ++ [tokens].
Proof.
  intros S T W. unfold well_formed_command in W.
  apply andb_prop in W. destruct W as [W F].
  apply andb_prop in W. destruct W as [W1 W2].
  apply Z.ltb_lt in W1. apply Z.ltb_lt in W2.
  unfold encode_command. rewrite <- !app_assoc.
  rewrite Tokenize_unfold, step_array_header by (try exact S; lia).
  set (r1 := mkRequest BulkLen _ _ _ _).
  destruct (decode_bulks tokens r1
              (IncrInbondBytes (size (str "*" ++ decimal (size tokens))) st)
              rest)
    as (r' & st' & E & S' & T' & C'); try reflexivity; try assumption.
  - intros ->. change (size (@nil bytes)) with 0 in W1. lia.
  - exists r', st'. rewrite E. repeat split; try assumption.
    rewrite C'. subst r1. cbn. now rewrite T.
Qed.

(** A batch of commands. *)
Lemma decode_batch (cmds : list (list bytes)) :
  forall r st rest,
    state_ r = ArrayLen -> tokens_ r = [] -> well_formed cmds = true ->
    exists r' st',
      Tokenize r st (encode_batch cmds ++ rest) = Tokenize r' st' rest
      /\ state_ r' = ArrayLen /\ tokens_ r' = []
      /\ commands_ r' = commands_ r ++ cmds.
Proof.
  induction cmds as [|c cmds IH]; intros r st rest S T W.
  - exists r, st. simpl. now rewrite app_nil_r.
  - cbn [well_formed forallb] in W. apply andb_prop in W.
    destruct W as [Wc Wcmds].
    unfold encode_batch. cbn [flat_map]. fold (encode_batch cmds).
    rewrite <- app_assoc.
    destruct (decode_command c r st (encode_batch cmds ++ rest) S T Wc)
      as (r1 & st1 & E1 & S1 & T1 & C1).
    destruct (IH r1 st1 rest S1 T1 Wcmds) as (r2 & st2 & E2 & S2 & T2 & C2).
    exists r2, st2. rewrite E1, E2. repeat split; try assumption.
    rewrite C2, C1, <- app_assoc. reflexivity.
Qed.

Lemma fresh_decoder_rests st : Tokenize_step new_request st [] = Suspend.
Proof. reflexivity. Qed.

(** Two frames on the wire, the first with no element: the decoder takes
    the array header of the second frame for a bulk header and its bulk
    header for a body, and hands over one command, [$], for the two
    frames. *)
Lemma zero_count_frame_breaks_the_framing :
  encode_batch [[]; [str "PING"]] = wire ["*0"; "*1"; "$4"; "PING"]%string
  /\ Tokenize new_request new_stats (encode_batch [[]; [str "PING"]])
     = Returned (mkRequest BulkLen 0 1 [] [[str "$"]]) (mkStats 12 0 [] []) []
  /\ batch_of (Tokenize new_request new_stats
                        (encode_batch [[]; [str "PING"]]))
     <> Some [[]; [str "PING"]].
Proof.
  split; [reflexivity|]. split; [vm_compute; reflexivity|].
  vm_compute. discriminate.
Qed.

(** C3, amended.  Chunk-boundary independence: any byte sequence, cut
    into contiguous chunks in any way and delivered chunk by chunk to
    successive calls of the decoder, ends as one call on the whole
    sequence ends, with the same batch.  When the sequence is the encoding
    of commands that all have at least one token, that batch is the list
    of the encoded commands, in order, each one once, with its own tokens,
    and the decoder ends between two commands with the buffer empty. *)
Theorem chunk_boundary_independence (chunks : list bytes) (st : Stats) :
  deliver new_request st [] chunks = Tokenize new_request st (concat chunks)
  /\ forall cmds : list (list bytes),
      well_formed cmds = true ->
      concat chunks = encode_batch cmds ->
      exists r st',
        deliver new_request st [] chunks = Returned r st' []
        /\ Tokenize new_request st (encode_batch cmds) = Returned r st' []
        /\ commands_ r = cmds /\ tokens_ r = [] /\ state_ r = ArrayLen.
Proof.
  assert (D : deliver new_request st [] chunks
              = Tokenize new_request st (concat chunks)).
  { now rewrite (deliver_concat chunks new_request st []
                   (fresh_decoder_rests st)). }
  split; [exact D|].
  intros cmds W C. rewrite D, C.
  destruct (decode_batch cmds new_request st [] eq_refl eq_refl W)
    as (r & st' & E & S & T & B).
  rewrite app_nil_r in E.
  assert (R : Tokenize r st' [] = Returned r st' []).
  { rewrite Tokenize_unfold. unfold Tokenize_step. now rewrite S. }
  exists r, st'. rewrite E, R. repeat split; assumption.
Qed.

Lemma chunk_boundary_independence_witness :
  exists r st',
    deliver new_request new_stats []
            [wire ["*2"; "$3"]%string ++ str "G";
             str "ET" ++ CRLF ++ str "$3" ++ [CR];
             [LF] ++ str "foo" ++ CRLF]
    = Returned r st' []
    /\ Tokenize new_request new_stats (encode_batch [[str "GET"; str "foo"]])
       = Returned r st' []
    /\ commands_ r = [[str "GET"; str "foo"]] /\ tokens_ r = []
    /\ state_ r = ArrayLen.
Proof.
  apply (proj2 (chunk_boundary_independence
                  [wire ["*2"; "$3"]%string ++ str "G";
                   str "ET" ++ CRLF ++ str "$3" ++ [CR];
                   [LF] ++ str "foo" ++ CRLF] new_stats)
               [[str "GET"; str "foo"]]);
    reflexivity.
Defined.

(** A suspended turn leaves the request, the counters and the buffer as
    they are. *)
Lemma suspension_consumes_nothing r st input :
  Tokenize_step r st input = Suspend ->
  Tokenize r st input = Returned r st input.
Proof. intros H. now rewrite Tokenize_unfold, H. Qed.

(** C7.  At every point of the decoding, in the middle of a call and
    between two calls, the tokens assembled for the command in progress
    and the pending element count add up to the count that the array
    header of that command declared, and no tokens are held between two
    commands; a decoder that waits for the body of a bulk element returns
    with the request, the counters and the buffer unchanged, and the next
    call goes on from there on the same bytes followed by the new ones. *)
Theorem pending_count_invariant (d : Z) r st input :
  Decoding d r st input ->
  (state_ r = ArrayLen -> tokens_ r = [])
  /\ (state_ r <> ArrayLen -> size (tokens_ r) + multi_bulk_len_ r = d)
  /\ (state_ r = BulkData ->
      size input < wrap64 (Z.of_N (bulk_len_ r) + 2) ->
      Tokenize r st input = Returned r st input
      /\ forall more,
          deliver r st input [more] = Tokenize r st (input ++ more)).
Proof.
  intros D.
  assert (I : (state_ r = ArrayLen -> tokens_ r = [])
              /\ (state_ r <> ArrayLen ->
                  size (tokens_ r) + multi_bulk_len_ r = d)).
  { induction D as [st input | d r st input chunk D IH | d r st input D IH
                      | d r st input line after n r' st' input' D IH S R A T
                      | d r st input r' st' input' D IH S T].
      - split; [reflexivity | intros H; now elim H].
      - exact IH.
      - exact IH.
      - destruct IH as [IH1 _].
        unfold Tokenize_step in T. rewrite S, R, A in T.
        injection T as <- _ _. split; [discriminate|]. intros _.
        cbn [tokens_ multi_bulk_len_]. rewrite (IH1 S). reflexivity.
      - destruct IH as [_ IH2]. specialize (IH2 S).
        unfold Tokenize_step in T.
        destruct (state_ r) eqn:S'; [congruence| |].
        + destruct (evbuffer_readln input) as [[l a]|]; [|discriminate].
          destruct (bulk_len_of_line l); [|discriminate].
          injection T as <- _ _. split; [discriminate|]. intros _. exact IH2.
        + cbv zeta in T.
          destruct (size input <? _); [discriminate|].
          destruct (string_max_size <? _); [discriminate|].
          destruct (multi_bulk_len_ r =? INT64_MIN); [discriminate|].
          destruct (multi_bulk_len_ r - 1 <=? 0);
            injection T as <- _ _.
          * split; [reflexivity | intros H; now elim H].
          * split; [discriminate|]. intros _. cbn [tokens_ multi_bulk_len_].
            rewrite size_app, size_cons, size_nil. lia. }
  destruct I as [I1 I2]. split; [exact I1 | split; [exact I2 |]].
  intros S L.
  assert (Tokenize_step r st input = Suspend) as Z.
  { unfold Tokenize_step. rewrite S. cbv zeta.
    apply Z.ltb_lt in L. now rewrite L. }
  split; [now apply suspension_consumes_nothing|].
  intros more. rewrite (deliver_concat [more] r st input Z).
  cbn [concat]. now rewrite app_nil_r.
Qed.

Lemma pending_count_invariant_witness :
  let r := mkRequest BulkData 1 3 [str "GET"] [] in
  let st := mkStats 11 0 [] [] in
  size (tokens_ r) + multi_bulk_len_ r = 2
  /\ Tokenize r st (str "fo") = Returned r st (str "fo")
  /\ deliver r st (str "fo") [str "o" ++ CRLF]
     = Tokenize r st (str "fo" ++ str "o" ++ CRLF).
Proof.
  intros r st.
  assert (D : Decoding 2 r st (str "fo")).
  { apply (Decoding_element 2 (mkRequest BulkLen 1 3 [str "GET"] [])
             (mkStats 9 0 [] []) (wire ["$3"]%string ++ str "fo"));
      [|discriminate|reflexivity].
    apply (Decoding_element 2 (mkRequest BulkData 2 3 [] [])
             (mkStats 4 0 [] []) (wire ["GET"; "$3"]%string ++ str "fo"));
      [|discriminate|reflexivity].
    apply (Decoding_arrival 2 (mkRequest BulkData 2 3 [] [])
             (mkStats 4 0 [] []) (str "GE")
             (str "T" ++ CRLF ++ wire ["$3"]%string ++ str "fo")).
    apply (Decoding_element 2 (mkRequest BulkLen 2 0 [] [])
             (mkStats 2 0 [] []) (wire ["$3"]%string ++ str "GE"));
      [|discriminate|reflexivity].
    apply (Decoding_header 0 new_request new_stats
             (wire ["*2"; "$3"]%string ++ str "GE") (str "*2")
             (wire ["$3"]%string ++ str "GE") 2);
      [|reflexivity|reflexivity|reflexivity|reflexivity].
    apply Decoding_start. }
  destruct (pending_count_invariant 2 r st (str "fo") D) as (_ & H2 & H3).
  split; [apply H2; discriminate|].
  destruct (H3 eq_refl eq_refl) as [H4 H5].
  split; [exact H4 | apply H5].
Defined.

(** ** Reads inside and outside the line *)

Lemma isdigit_NUL : isdigit NUL = false.
Proof. reflexivity. Qed.

Lemma scan_digits_c_str (l : bytes) (acc : Z) :
  0 <= acc -> exists v, scan_digits acc (l ++ [NUL]) = Some v /\ 0 <= v.
Proof.
  revert acc. induction l as [|c l IH]; intros acc H.
  - exists acc. now split.
  - cbn [app scan_digits]. destruct (isdigit c) eqn:E.
    + apply IH. unfold isdigit in E. cbv zeta in E.
      apply andb_prop in E. destruct E as [E _]. apply Z.leb_le in E. lia.
    + exists acc. now split.
Qed.

Lemma skip_space_c_str (l : bytes) :
  exists c l', skip_space (l ++ [NUL]) = Some (c :: l')
               /\ ((c = NUL /\ l' = []) \/ exists m, l' = m ++ [NUL]).
Proof.
  induction l as [|c l IH].
  - exists NUL, []. split; [reflexivity | now left].
  - cbn [app skip_space]. destruct (isspace c); [exact IH|].
    exists c, (l ++ [NUL]). split; [reflexivity | right; now exists l].
Qed.

(** On the memory of a line, from a pointer inside it, [strtoull] stops at
    the terminating NUL at the latest and returns an [unsigned long long]. *)
Lemma strtoull_c_str (l : bytes) :
  exists v, strtoull (l ++ [NUL]) = Some v /\ 0 <= v <= ULLONG_MAX.
Proof.
  destruct (skip_space_c_str l) as (c & l' & E & C).
  unfold strtoull. rewrite E. cbv beta iota zeta.
  match goal with
  | |- context [scan_digits 0 ?ds] =>
      assert (S : exists v, scan_digits 0 ds = Some v /\ 0 <= v)
  end.
  { destruct C as [[-> ->] | [m ->]].
    - exists 0. now split.
    - destruct (is_byte 45 c || is_byte 43 c).
      + apply scan_digits_c_str. lia.
      + apply (scan_digits_c_str (c :: m)). lia. }
  destruct S as (v & Sv & Hv).
  rewrite Sv. eexists. split; [reflexivity|].
  destruct (ULLONG_MAX <? v) eqn:U; [unfold ULLONG_MAX; lia|].
  apply Z.ltb_ge in U.
  destruct (is_byte 45 c); [|lia].
  unfold wrap64, ULLONG_MAX.
  pose proof (Z.mod_pos_bound (- v) (2 ^ 64)). lia.
Qed.

(** The array-header state never reads outside the line: the empty line is
    guarded. *)
Lemma array_len_of_line_total (line : bytes) :
  exists n, array_len_of_line line = Some n.
Proof.
  unfold array_len_of_line. destruct line as [|c l].
  - now exists 0.
  - assert ((0 <? size (c :: l)) = true) as ->.
    { apply Z.ltb_lt. rewrite size_cons. pose proof (size_nonneg l). lia. }
    unfold c_str. cbn [app skipn].
    destruct (strtoull_c_str l) as (v & -> & _). now eexists.
Qed.

(** The bulk-header state reads outside the line exactly when the line is
    empty. *)
Lemma bulk_len_of_line_guard (line : bytes) :
  bulk_len_of_line line = None <-> line = [].
Proof.
  unfold bulk_len_of_line, c_str. split.
  - destruct line as [|c l]; [reflexivity|]. cbn [app skipn].
    destruct (strtoull_c_str l) as (v & -> & _). discriminate.
  - now intros ->.
Qed.

(** What a turn adds to the inbound counter, against what it drains. *)
Lemma step_accounting r st input r' st' input' :
  Tokenize_step r st input = Progress r' st' input' ->
  inbound_bytes st' - inbound_bytes st
  = (size input - size input')
    - match state_ r with BulkData => 0 | _ => 2 end.
Proof.
  intros H. unfold Tokenize_step in H.
  destruct (state_ r).
  - destruct (evbuffer_readln input) as [[line after]|] eqn:R; [|discriminate].
    destruct (array_len_of_line line); [|discriminate].
    injection H as _ <- <-. apply readln_split in R. subst input.
    rewrite !size_app. change (size CRLF) with 2.
    unfold IncrInbondBytes. cbn [inbound_bytes]. lia.
  - destruct (evbuffer_readln input) as [[line after]|] eqn:R; [|discriminate].
    destruct (bulk_len_of_line line); [|discriminate].
    injection H as _ <- <-. apply readln_split in R. subst input.
    rewrite !size_app. change (size CRLF) with 2.
    unfold IncrInbondBytes. cbn [inbound_bytes]. lia.
  - cbv zeta in H.
    destruct (size input <? wrap64 (Z.of_N (bulk_len_ r) + 2)) eqn:E1;
      [discriminate|].
    destruct (string_max_size <? Z.of_N (bulk_len_ r)) eqn:E2; [discriminate|].
    apply Z.ltb_ge in E1. apply Z.ltb_ge in E2. unfold string_max_size in E2.
    unfold wrap64 in E1. rewrite Z.mod_small in E1 by lia.
    assert (size input' = size input - (Z.of_N (bulk_len_ r) + 2)
            /\ inbound_bytes st'
               = inbound_bytes st + (Z.of_N (bulk_len_ r) + 2)) as [-> ->].
    { destruct (multi_bulk_len_ r =? INT64_MIN); [discriminate|].
      destruct (multi_bulk_len_ r - 1 <=? 0);
        injection H as _ <- <-; (split; [|reflexivity]);
        unfold size in *; rewrite length_skipn; lia. }
    lia.
Qed.

(** ** Array headers that declare no element *)

(** On the header [*0] alone the decoder returns with an empty batch, in
    the state that waits for a bulk header: no command without tokens was
    emitted. *)
Lemma zero_count_emits_nothing :
  Tokenize new_request new_stats (wire ["*0"]%string)
  = Returned (mkRequest BulkLen 0 0 [] []) (mkStats 2 0 [] []) []
  /\ batch_of (Tokenize new_request new_stats (wire ["*0"]%string))
     <> Some [[]].
Proof. split; [reflexivity | discriminate]. Qed.

(** C2, amended.  On an array header line that declares a count of zero
    or less (the empty line and the line without digits count as zero) the
    decoder emits no command: it stores the count, leaves the batch as it
    is and goes to the state that reads a bulk header; while no whole line
    follows, the call returns in that state and waits. *)
Theorem nonpositive_count_waits r st input line after (n : Z) :
  state_ r = ArrayLen ->
  evbuffer_readln input = Some (line, after) ->
  array_len_of_line line = Some n ->
  n <= 0 ->
  let r' := mkRequest BulkLen n (bulk_len_ r) (tokens_ r) (commands_ r) in
  let st' := IncrInbondBytes (size line) st in
  Tokenize_step r st input = Progress r' st' after
  /\ commands_ r' = commands_ r
  /\ (evbuffer_readln after = None ->
      Tokenize r st input = Returned r' st' after)
  /\ array_len_of_line [] = Some 0
  /\ array_len_of_line (str "*") = Some 0.
Proof.
  intros S R A N r' st'.
  assert (T : Tokenize_step r st input = Progress r' st' after).
  { unfold Tokenize_step. now rewrite S, R, A. }
  split; [exact T|]. split; [reflexivity|]. split; [|split; reflexivity].
  intros W. rewrite Tokenize_unfold, T, Tokenize_unfold.
  unfold Tokenize_step. cbn [state_ r']. now rewrite W.
Qed.

Lemma nonpositive_count_waits_witness :
  Tokenize_step new_request new_stats (wire ["*0"]%string ++ str "$1")
  = Progress (mkRequest BulkLen 0 0 [] []) (mkStats 2 0 [] []) (str "$1")
  /\ commands_ (mkRequest BulkLen 0 0 [] []) = commands_ new_request
  /\ Tokenize new_request new_stats (wire ["*0"]%string ++ str "$1")
     = Returned (mkRequest BulkLen 0 0 [] []) (mkStats 2 0 [] []) (str "$1").
Proof.
  destruct (nonpositive_count_waits new_request new_stats
              (wire ["*0"]%string ++ str "$1") (str "*0") (str "$1") 0
              eq_refl eq_refl eq_refl)
    as (H1 & H2 & H3 & _); [lia|].
  split; [exact H1|]. split; [exact H2|]. apply H3. reflexivity.
Defined.

(** ** Inbound bytes *)

(** C8.  The command [*1 $1 a] takes 11 bytes on the wire and the decoder
    drains them all, but the inbound counter grows by 7: the two header
    lines are counted without their terminators, the bulk element with
    its terminator. *)
Theorem inbound_bytes_miss_header_terminators :
  size (wire ["*1"; "$1"; "a"]%string) = 11
  /\ Tokenize new_request new_stats (wire ["*1"; "$1"; "a"]%string)
     = Returned (mkRequest ArrayLen 0 1 [] [[str "a"]]) (mkStats 7 0 [] []) [].
Proof. split; reflexivity. Qed.

(** ** The empty bulk header line *)

(** C10.  An empty line where a bulk header is expected makes
    [strtoull (line + 1)] start behind the terminating NUL of the line,
    outside its memory; the array-header state has the guard [len > 0] and
    takes the empty line as zero. *)
Theorem empty_bulk_header_reads_outside :
  bulk_len_of_line [] = None
  /\ array_len_of_line [] = Some 0
  /\ Tokenize new_request new_stats (wire ["*1"; ""]%string)
     = Crashed OutOfBoundsRead.
Proof. repeat split. Qed.

(** ** The dispatcher *)

Lemma bytes_eqb_eq (a b : bytes) : bytes_eqb a b = true <-> a = b.
Proof.
  revert b. induction a as [|x a IH]; intros [|y b]; cbn [bytes_eqb];
    try (split; [discriminate | discriminate]); try tauto.
  rewrite andb_true_iff, Ascii.eqb_eq, IH. split.
  - now intros [-> ->].
  - intros E. injection E as -> ->. now split.
Qed.

Lemma bytes_eqb_neq (a b : bytes) : bytes_eqb a b = false <-> a <> b.
Proof.
  rewrite <- bytes_eqb_eq. destruct (bytes_eqb a b); split; congruence.
Qed.


Section DispatchFacts.

Variable Commander : Type.
Variable kCloseAfterReply : Z.
Variable LookupCommand : bytes -> bool -> option Commander.
Variable GetArity : Commander -> Z.
Variable IsWrite : Commander -> bool.
Variable Name : Commander -> bytes.
Variable Parse : Commander -> list bytes -> Status.
Variable Execute :
  Commander -> list bytes -> World Commander -> bytes
  -> Status * bytes * Z * World Commander.

Local Abbreviation call := (call_command Commander Name Execute).
Local Abbreviation parse := (parse_command Commander IsWrite Name Parse Execute).
Local Abbreviation process :=
  (process_command Commander LookupCommand GetArity IsWrite Name Parse
                   Execute).
Local Abbreviation loop :=
  (ExecuteCommands_loop Commander kCloseAfterReply LookupCommand GetArity
                        IsWrite Name Parse Execute).
Local Abbreviation execute_commands :=
  (ExecuteCommands Commander kCloseAfterReply LookupCommand GetArity
                   IsWrite Name Parse Execute).

(** Every [continue] of the body leads to the next command. *)
Lemma loop_continue cmd_tokens rest reply reply' (w w' : World Commander) :
  IsFlagEnabled kCloseAfterReply (conn_ w) = false ->
  process cmd_tokens reply w = Finished (reply', w') ->
  loop (cmd_tokens :: rest) reply w = loop rest reply' w'.
Proof. intros F P. cbn [ExecuteCommands_loop]. now rewrite F, P. Qed.

(** A command that passed the authentication gate and was found in the
    registry: the arity decides. *)
Lemma process_resolved front args reply (w : World Commander) cmd :
  ns_ (conn_ w) <> [] \/ ToLower front = str "auth" ->
  LookupCommand front (repl_ (conn_ w)) = Some cmd ->
  let w1 := mkWorld (svr_ w) (with_current_cmd cmd (conn_ w)) in
  process (front :: args) reply w
  = if wrong_arity (GetArity cmd) (to_int (size (front :: args)))
    then Finished (reply,
                   Reply (Error (str "ERR wrong number of arguments")) w1)
    else Finished (parse cmd (front :: args) reply w1).
Proof.
  intros A L w1. unfold process_command.
  assert ((bytes_eqb (ns_ (conn_ w)) []
           && negb (bytes_eqb (ToLower front) (str "auth"))) = false) as ->.
  { apply andb_false_iff. destruct A as [A | A].
    - left. now apply bytes_eqb_neq.
    - right. apply negb_false_iff. now apply bytes_eqb_eq. }
  now rewrite L.
Qed.

(** The body on a session without namespace, for a command that is not
    [auth]. *)
Lemma process_unauthenticated front args reply (w : World Commander) :
  ns_ (conn_ w) = [] ->
  ToLower front <> str "auth" ->
  process (front :: args) reply w
  = Finished (reply,
              Reply (Error (str "NOAUTH Authentication required.")) w).
Proof.
  intros N A. unfold process_command. rewrite N.
  apply bytes_eqb_neq in A. now rewrite A.
Qed.




(** A whole batch without [auth] on a session that did not authenticate:
    one error for every command, and nothing else. *)
Lemma unauthenticated_batch cmds : forall reply (w : World Commander),
  IsFlagEnabled kCloseAfterReply (conn_ w) = false ->
  ns_ (conn_ w) = [] ->
  Forall (fun c => exists front args,
              c = front :: args /\ ToLower front <> str "auth") cmds ->
  loop cmds reply w
  = Finished
      (fold_left
         (fun w _ => Reply (Error (str "NOAUTH Authentication required.")) w)
         cmds w).
Proof.
  induction cmds as [|c cmds IH]; intros reply w F N A; [reflexivity|].
  inversion A as [|? ? (front & args & -> & Hf) A']; subst.
  rewrite (loop_continue _ cmds _ _ _ _ F
             (process_unauthenticated front args reply w N Hf)).
  cbn [fold_left]. apply IH; [exact F | exact N | exact A'].
Qed.

(** While the server loads, a batch that is not empty is answered with one
    error and stays in the request as it is. *)
Lemma loading_keeps_batch r (w : World Commander) :
  commands_ r <> [] -> is_loading_ (svr_ w) = true ->
  execute_commands r w
  = Finished (r, Reply (Error (str "replication in progress")) w).
Proof.
  intros N L. unfold ExecuteCommands.
  destruct (commands_ r); [congruence|]. now rewrite L.
Qed.

End DispatchFacts.

(** ** The dispatcher on the example command table *)




(** C1.  The server loads while three pipelined commands arrive: the
    session gets one reply, the loading error, and no command is called;
    but the three commands stay in the batch.  When the next command
    arrives and the server loads no more, the three old commands are
    called in front of the new one, and only then the batch is emptied. *)
Theorem loading_batch_is_kept_and_replayed :
  let batch := [[str "GET"; str "a"]; [str "GET"; str "b"];
                [str "GET"; str "c"]] in
  exists r1 w1 r2 w2,
    Demo.OnRead (encode_batch batch) new_request [] Demo.user_while_loading
    = Finished (r1, [], w1)
    /\ output_ (conn_ w1) = Error (str "replication in progress")
    /\ calls (stats_ (svr_ w1)) = []
    /\ commands_ r1 = batch
    /\ Demo.OnRead (encode_batch [[str "GET"; str "d"]]) r1 []
                   (Demo.set_loading false w1)
       = Finished (r2, [], w2)
    /\ calls (stats_ (svr_ w2)) = [str "get"; str "get"; str "get"; str "get"]
    /\ commands_ r2 = [].
Proof.
  intros batch. do 4 eexists.
  repeat (split; [vm_compute; reflexivity|]).
  vm_compute. reflexivity.
Qed.

(** ** Channel subscriptions *)

Section Subscriptions.

Variable Commander : Type.
Implicit Types (w : World Commander) (channel : bytes).

Lemma existsb_bytes_eqb channel (l : list bytes) :
  existsb (bytes_eqb channel) l = true <-> In channel l.
Proof.
  rewrite existsb_exists. split.
  - intros (x & I & E). apply bytes_eqb_eq in E. now subst.
  - intros I. exists channel. split; [exact I | now apply bytes_eqb_eq].
Qed.

(** A channel the session has is not added and the registry is not told. *)
Lemma SubscribeChannel_subscribed channel w :
  In channel (subscribe_channels_ (conn_ w)) ->
  SubscribeChannel channel w = w.
Proof.
  intros I. unfold SubscribeChannel.
  apply existsb_bytes_eqb in I. now rewrite I.
Qed.

(** A channel the session does not have is added at the end and the
    registry is told once. *)
Lemma SubscribeChannel_new channel w :
  ~ In channel (subscribe_channels_ (conn_ w)) ->
  subscribe_channels_ (conn_ (SubscribeChannel channel w))
  = subscribe_channels_ (conn_ w) ++ [channel]
  /\ pubsub_ (svr_ (SubscribeChannel channel w))
     = pubsub_ (svr_ w) ++ [RegSubscribe channel (fd_ (conn_ w))].
Proof.
  intros I. unfold SubscribeChannel.
  destruct (existsb (bytes_eqb channel) (subscribe_channels_ (conn_ w)))
    eqn:E.
  - apply existsb_bytes_eqb in E. contradiction.
  - split; reflexivity.
Qed.

Lemma SubscribeChannel_twice channel w :
  SubscribeChannel channel (SubscribeChannel channel w)
  = SubscribeChannel channel w.
Proof.
  apply SubscribeChannel_subscribed.
  unfold SubscribeChannel.
  destruct (existsb (bytes_eqb channel) (subscribe_channels_ (conn_ w)))
    eqn:E.
  - now apply existsb_bytes_eqb.
  - cbn. apply in_or_app. right. now left.
Qed.

(** The channels of a session stay without duplicates. *)
Lemma SubscribeChannel_NoDup channel w :
  NoDup (subscribe_channels_ (conn_ w)) ->
  NoDup (subscribe_channels_ (conn_ (SubscribeChannel channel w))).
Proof.
  intros N. unfold SubscribeChannel.
  destruct (existsb (bytes_eqb channel) (subscribe_channels_ (conn_ w)))
    eqn:E; [exact N|].
  cbn. apply NoDup_app; [exact N | repeat constructor; intros [] |].
  intros x I [<- | []].
  apply existsb_bytes_eqb in I. congruence.
Qed.

Lemma UnSubscribe_loop_S fuel channel (i : nat) w :
  UnSubscribe_loop (S fuel) channel i w
  = let v := subscribe_channels_ (conn_ w) in
    if Nat.eqb i (length v) then Finished w
    else
      match nth_error v i with
      | None => Undefined OutOfBoundsRead
      | Some chan =>
          if bytes_eqb chan channel then
            UnSubscribe_loop fuel channel (S i)
              (mkWorld
                 (with_pubsub (RegUnSubscribe channel (fd_ (conn_ w)))
                              (svr_ w))
                 (with_channels (erase i v) (conn_ w)))
          else UnSubscribe_loop fuel channel (S i) w
      end.
Proof. reflexivity. Qed.

(** The loop of [UnSubscribeChannel] over [k] channels that are not the
    one looked for. *)
Lemma UnSubscribe_loop_skip (k : nat) : forall fuel channel i w,
  (forall j, (i <= j < i + k)%nat ->
             exists c, nth_error (subscribe_channels_ (conn_ w)) j = Some c
                       /\ c <> channel) ->
  UnSubscribe_loop (k + fuel) channel i w
  = UnSubscribe_loop fuel channel (i + k) w.
Proof.
  induction k as [|k IH]; intros fuel channel i w H.
  - now rewrite Nat.add_0_r.
  - cbn [Nat.add]. rewrite UnSubscribe_loop_S. cbv zeta.
    destruct (H i ltac:(lia)) as (c & Hc & Hne).
    assert (i < length (subscribe_channels_ (conn_ w)))%nat as L.
    { apply nth_error_Some. congruence. }
    assert (Nat.eqb i (length (subscribe_channels_ (conn_ w))) = false) as ->
        by (apply Nat.eqb_neq; lia).
    rewrite Hc. apply bytes_eqb_neq in Hne. rewrite Hne.
    rewrite IH.
    + f_equal. lia.
    + intros j Hj. apply H. lia.
Qed.

(** The channel looked for is the last of the vector: after [erase] the
    iterator is [end()], the step of the loop moves it behind [end()],
    and the loop reads outside the vector. *)
Lemma UnSubscribeChannel_last channel w (before : list bytes) :
  subscribe_channels_ (conn_ w) = before ++ [channel] ->
  ~ In channel before ->
  UnSubscribeChannel channel w = Undefined OutOfBoundsRead.
Proof.
  intros V N. unfold UnSubscribeChannel. rewrite V, length_app.
  cbn [length].
  replace (2 + (length before + 1))%nat with (length before + 3)%nat by lia.
  rewrite UnSubscribe_loop_skip.
  - cbn [Nat.add]. rewrite UnSubscribe_loop_S. cbv zeta.
    rewrite V, length_app. cbn [length].
    assert (Nat.eqb (length before) (length before + 1) = false) as ->
        by (apply Nat.eqb_neq; lia).
    rewrite nth_error_app2, Nat.sub_diag by lia. cbn [nth_error].
    assert (bytes_eqb channel channel = true) as -> by now apply bytes_eqb_eq.
    assert (E : erase (length before) (before ++ [channel]) = before).
    { unfold erase. rewrite firstn_app, Nat.sub_diag, firstn_all, skipn_all2
        by (rewrite length_app; cbn; lia).
      cbn [firstn]. now rewrite !app_nil_r. }
    rewrite E, UnSubscribe_loop_S. cbv zeta.
    cbn [conn_ with_channels subscribe_channels_].
    assert (Nat.eqb (S (length before)) (length before) = false) as ->
        by (apply Nat.eqb_neq; lia).
    assert (nth_error before (S (length before)) = None) as ->
        by (apply nth_error_None; lia).
    reflexivity.
  - intros j Hj. rewrite V, nth_error_app1 by lia.
    destruct (nth_error before j) as [c|] eqn:E.
    + exists c. split; [reflexivity|]. intros ->.
      apply N. eapply nth_error_In. exact E.
    + apply nth_error_None in E. lia.
Qed.


End Subscriptions.

(** C9.  A session subscribes to a channel it does not have: the channel
    is added and the registry is told once; it subscribes again: nothing
    changes and the registry is not told.  It unsubscribes from the
    channel, which is the last of its vector: the entry is erased, and the
    loop goes on with the iterator behind [end()] and reads outside the
    vector.  With another channel behind it, the same call ends well, with
    one call of the registry. *)
Theorem unsubscribe_last_channel_reads_outside :
  let news := str "news" in
  let once := SubscribeChannel news (Demo.subscriber []) in
  subscribe_channels_ (conn_ once) = [news]
  /\ pubsub_ (svr_ once) = [RegSubscribe news 7]
  /\ SubscribeChannel news once = once
  /\ UnSubscribeChannel news once = Undefined OutOfBoundsRead
  /\ UnSubscribeChannel news (Demo.subscriber [news; str "sport"])
     = Finished (mkWorld (with_pubsub (RegUnSubscribe news 7)
                                      (svr_ (Demo.subscriber [])))
                         (conn_ (Demo.subscriber [str "sport"]))).
Proof. repeat split. Qed.

(** ** The loops return *)

Section Totality.

Variable Commander : Type.
Variable kCloseAfterReply : Z.
Variable LookupCommand : bytes -> bool -> option Commander.
Variable GetArity : Commander -> Z.
Variable IsWrite : Commander -> bool.
Variable Name : Commander -> bytes.
Variable Parse : Commander -> list bytes -> Status.
Variable Execute :
  Commander -> list bytes -> World Commander -> bytes
  -> Status * bytes * Z * World Commander.

Lemma UnSubscribe_loop_total (fuel : nat) : forall channel i
    (w : World Commander),
  (length (subscribe_channels_ (conn_ w)) - i < fuel)%nat ->
  UnSubscribe_loop fuel channel i w <> OutOfFuel.
Proof.
  induction fuel as [|fuel IH]; intros channel i w H; [lia|].
  rewrite UnSubscribe_loop_S. cbv zeta.
  destruct (Nat.eqb i (length (subscribe_channels_ (conn_ w)))) eqn:E;
    [discriminate|].
  apply Nat.eqb_neq in E.
  destruct (nth_error (subscribe_channels_ (conn_ w)) i) as [c|] eqn:N;
    [|discriminate].
  assert (i < length (subscribe_channels_ (conn_ w)))%nat as L
      by (apply nth_error_Some; congruence).
  destruct (bytes_eqb c channel).
  - apply IH. cbn [conn_ with_channels subscribe_channels_].
    unfold erase. rewrite length_app, length_firstn, length_skipn. lia.
  - apply IH. lia.
Qed.

(** [UnSubscribeChannel] ends, with a result or in undefined behaviour. *)
Lemma UnSubscribeChannel_total channel (w : World Commander) :
  UnSubscribeChannel channel w <> OutOfFuel.
Proof. apply UnSubscribe_loop_total. lia. Qed.

Lemma process_command_total cmd_tokens reply (w : World Commander) :
  process_command Commander LookupCommand GetArity IsWrite Name Parse Execute
                  cmd_tokens reply w <> OutOfFuel.
Proof.
  unfold process_command. destruct cmd_tokens as [|front args]; [discriminate|].
  destruct (_ && _); [discriminate|].
  destruct (LookupCommand front (repl_ (conn_ w))); [|discriminate].
  cbv zeta. destruct (wrong_arity _ _); discriminate.
Qed.

Lemma ExecuteCommands_loop_total cmds : forall reply (w : World Commander),
  ExecuteCommands_loop Commander kCloseAfterReply LookupCommand GetArity
                       IsWrite Name Parse Execute cmds reply w <> OutOfFuel.
Proof.
  induction cmds as [|c cmds IH]; intros reply w; [discriminate|].
  cbn [ExecuteCommands_loop].
  destruct (IsFlagEnabled kCloseAfterReply (conn_ w)); [discriminate|].
  pose proof (process_command_total c reply w) as P.
  destruct (process_command _ _ _ _ _ _ _ c reply w) as [[reply' w']|f|];
    [apply IH | discriminate | congruence].
Qed.

(** A read event ends, with a result or in undefined behaviour. *)
Lemma OnRead_total chunk r input (w : World Commander) :
  OnRead Commander kCloseAfterReply LookupCommand GetArity IsWrite Name Parse
         Execute chunk r input w <> OutOfFuel.
Proof.
  unfold OnRead.
  pose proof (Tokenize_total r (stats_ (svr_ w)) (input ++ chunk)) as T.
  destruct (Tokenize r (stats_ (svr_ w)) (input ++ chunk))
    as [r' st' input'|f|]; [|discriminate|congruence].
  unfold ExecuteCommands.
  destruct (commands_ r') as [|c cmds] eqn:C; [discriminate|].
  destruct (is_loading_ _); [discriminate|].
  match goal with
  | |- context [ExecuteCommands_loop _ _ _ _ _ _ _ _ ?cs ?rp ?w0] =>
      pose proof (ExecuteCommands_loop_total cs rp w0) as L;
      destruct (ExecuteCommands_loop Commander kCloseAfterReply LookupCommand
                  GetArity IsWrite Name Parse Execute cs rp w0)
  end; [discriminate | discriminate | congruence].
Qed.

End Totality.

(** ** What the decoder hands to the dispatcher *)

(** Every command the decoder emits has a token, so [front()] in the
    dispatcher is defined on the batches of the decoder. *)
Lemma step_commands_nonempty r st input r' st' input' :
  Tokenize_step r st input = Progress r' st' input' ->
  Forall (fun c => c <> []) (commands_ r) ->
  Forall (fun c => c <> []) (commands_ r').
Proof.
  intros H F. unfold Tokenize_step in H.
  destruct (state_ r).
  - destruct (evbuffer_readln input) as [[line after]|]; [|discriminate].
    destruct (array_len_of_line line); [|discriminate].
    now injection H as <- _ _.
  - destruct (evbuffer_readln input) as [[line after]|]; [|discriminate].
    destruct (bulk_len_of_line line); [|discriminate].
    now injection H as <- _ _.
  - cbv zeta in H.
    destruct (size input <? _); [discriminate|].
    destruct (string_max_size <? _); [discriminate|].
    destruct (multi_bulk_len_ r =? INT64_MIN); [discriminate|].
    destruct (multi_bulk_len_ r - 1 <=? 0); injection H as <- _ _;
      [|exact F].
    cbn [commands_]. apply Forall_app. split; [exact F|].
    constructor; [|constructor]. now destruct (tokens_ r).
Qed.

Lemma Tokenize_commands_nonempty r st input r' st' input' :
  Tokenize r st input = Returned r' st' input' ->
  Forall (fun c => c <> []) (commands_ r) ->
  Forall (fun c => c <> []) (commands_ r').
Proof.
  remember (length input) as n eqn:Hn.
  revert r st input Hn.
  induction n as [n IH] using lt_wf_ind. intros r st input -> H F.
  rewrite Tokenize_unfold in H.
  destruct (Tokenize_step r st input) as [|f|r1 st1 input1] eqn:E;
    try discriminate.
  - now injection H as <- _ _.
  - apply step_consumes in E as L.
    apply (IH (length input1)) with (r := r1) (st := st1) (input := input1);
      [lia | reflexivity | exact H |].
    now apply (step_commands_nonempty _ _ _ _ _ _ E).
Qed.

(** The state a call of the decoder returns is a state of the decoding. *)
Lemma Tokenize_Decoding r st input r' st' input' (d : Z) :
  Decoding d r st input ->
  Tokenize r st input = Returned r' st' input' ->
  exists d', Decoding d' r' st' input'.
Proof.
  remember (length input) as n eqn:Hn.
  revert d r st input Hn.
  induction n as [n IH] using lt_wf_ind. intros d r st input -> D H.
  rewrite Tokenize_unfold in H.
  destruct (Tokenize_step r st input) as [|f|r1 st1 input1] eqn:E;
    try discriminate.
  - injection H as <- <- <-. now exists d.
  - apply step_consumes in E as L.
    destruct (state_ r) eqn:S.
    + assert (E' := E). unfold Tokenize_step in E'. rewrite S in E'.
      destruct (evbuffer_readln input) as [[line after]|] eqn:R;
        [|discriminate].
      destruct (array_len_of_line line) as [k|] eqn:A; [|discriminate].
      apply (IH (length input1)) with (d := k) (r := r1) (st := st1)
                                      (input := input1);
        [lia | reflexivity | | exact H].
      now apply (Decoding_header d r st input line after k r1 st1 input1).
    + apply (IH (length input1)) with (d := d) (r := r1) (st := st1)
                                      (input := input1);
        [lia | reflexivity | | exact H].
      apply (Decoding_element d r st input r1 st1 input1);
        [exact D | congruence | exact E].
    + apply (IH (length input1)) with (d := d) (r := r1) (st := st1)
                                      (input := input1);
        [lia | reflexivity | | exact H].
      apply (Decoding_element d r st input r1 st1 input1);
        [exact D | congruence | exact E].
Qed.

(** * Further properties of the decoder *)

(** X1.  The loop of [Tokenize] always ends: on every request and every
    buffer the call returns or leaves the defined behaviour, the bound on
    the turns is never met, and more turns than the bound change nothing. *)
Theorem Tokenize_loop_ends r st input :
  Tokenize r st input <> Exhausted
  /\ forall more : nat,
      Tokenize_loop (S (length input) + more) r st input = Tokenize r st input.
Proof.
  split; [apply Tokenize_total|].
  intros more. unfold Tokenize. apply loop_fuel; lia.
Qed.

(** X2.  Resumption on arbitrary bytes, well-formed or not: a call on the
    buffer followed by a call after more bytes arrived does what one call
    on all the bytes does, faults included; and a fresh decoder fed chunk
    by chunk does what one call on the concatenation does. *)
Theorem Tokenize_resumes_on_any_bytes r st input more (chunks : list bytes) :
  Tokenize r st (input ++ more)
  = match Tokenize r st input with
    | Returned r' st' input' => Tokenize r' st' (input' ++ more)
    | bad => bad
    end
  /\ deliver new_request st [] chunks
     = Tokenize new_request st (concat chunks).
Proof.
  split; [apply Tokenize_resume|].
  now rewrite (deliver_concat chunks new_request st [] (fresh_decoder_rests st)).
Qed.

(** X3.  A call without new bytes changes nothing: where [Tokenize]
    returned, a second call on what it left returns the same request, the
    same counters and the same buffer. *)
Theorem Tokenize_again_is_idle r st input r' st' input' :
  Tokenize r st input = Returned r' st' input' ->
  Tokenize r' st' input' = Returned r' st' input'.
Proof.
  intros H. apply suspension_consumes_nothing.
  now apply (Tokenize_rests r st input).
Qed.

Lemma Tokenize_again_is_idle_witness :
  Tokenize (mkRequest BulkData 1 3 [str "GET"] []) (mkStats 11 0 [] [])
           (str "fo")
  = Returned (mkRequest BulkData 1 3 [str "GET"] []) (mkStats 11 0 [] [])
             (str "fo").
Proof.
  apply (Tokenize_again_is_idle new_request new_stats
           (wire ["*2"; "$3"; "GET"; "$3"]%string ++ str "fo")).
  vm_compute. reflexivity.
Defined.

Lemma header_lines_app (a b : list (list bytes)) :
  header_lines (a ++ b) = header_lines a + header_lines b.
Proof.
  induction a as [|c a IH]; [reflexivity|].
  cbn [app header_lines fold_right]. fold (header_lines (a ++ b)).
  fold (header_lines a). lia.
Qed.

Lemma header_lines_nonneg (a : list (list bytes)) : 0 <= header_lines a.
Proof.
  induction a as [|c a IH]; [cbn; lia|].
  cbn [header_lines fold_right]. fold (header_lines a).
  pose proof (size_nonneg c). lia.
Qed.

Ltac size_nils :=
  repeat match goal with
         | |- context [@size ?A (@nil ?B)] => change (@size A (@nil B)) with 0
         end.

Ltac account_fields :=
  cbn [state_ tokens_ commands_ inbound_bytes outbound_bytes calls latencies
       header_lines fold_right app].

Lemma step_turns_account r st input r' st' input' :
  Tokenize_step r st input = Progress r' st' input' ->
  exists consumed new, turns_account r st input r' st' input' consumed new.
Proof.
  intros H. unfold Tokenize_step in H. unfold turns_account.
  destruct (state_ r) eqn:S.
  - destruct (evbuffer_readln input) as [[line after]|] eqn:R; [|discriminate].
    destruct (array_len_of_line line); [|discriminate].
    injection H as <- <- <-. apply readln_split in R. subst input.
    exists (line ++ CRLF), []. rewrite <- app_assoc, app_nil_r.
    unfold pending_header_lines, IncrInbondBytes. account_fields. rewrite S.
    rewrite size_app. change (size CRLF) with 2.
    pose proof (size_nonneg line). repeat split; try (now constructor); lia.
  - destruct (evbuffer_readln input) as [[line after]|] eqn:R; [|discriminate].
    destruct (bulk_len_of_line line); [|discriminate].
    injection H as <- <- <-. apply readln_split in R. subst input.
    exists (line ++ CRLF), []. rewrite <- app_assoc, app_nil_r.
    unfold pending_header_lines, IncrInbondBytes. account_fields. rewrite S.
    rewrite size_app. change (size CRLF) with 2.
    pose proof (size_nonneg line). repeat split; try (now constructor); lia.
  - cbv zeta in H.
    destruct (size input <? wrap64 (Z.of_N (bulk_len_ r) + 2)) eqn:E1;
      [discriminate|].
    destruct (string_max_size <? Z.of_N (bulk_len_ r)) eqn:E2; [discriminate|].
    apply Z.ltb_ge in E1. apply Z.ltb_ge in E2. unfold string_max_size in E2.
    unfold wrap64 in E1. rewrite Z.mod_small in E1 by lia.
    destruct (multi_bulk_len_ r =? INT64_MIN); [discriminate|].
    set (k := Z.to_nat (Z.of_N (bulk_len_ r) + 2)) in *.
    assert (K : size (firstn k input) = Z.of_N (bulk_len_ r) + 2).
    { unfold size in *. rewrite length_firstn. lia. }
    destruct (multi_bulk_len_ r - 1 <=? 0); injection H as <- <- <-.
    + exists (firstn k input),
        [tokens_ r ++ [firstn (Z.to_nat (Z.of_N (bulk_len_ r))) input]].
      rewrite firstn_skipn, K.
      unfold pending_header_lines, IncrInbondBytes. account_fields. rewrite S.
      rewrite size_app, size_cons.
      size_nils. repeat split; try lia.
      constructor; [|constructor]. now destruct (tokens_ r).
    + exists (firstn k input), [].
      rewrite firstn_skipn, K, app_nil_r.
      unfold pending_header_lines, IncrInbondBytes. account_fields. rewrite S.
      rewrite size_app, size_cons.
      size_nils. repeat split; try (now constructor); lia.
Qed.

Lemma turns_account_trans r st input r1 st1 input1 r2 st2 input2 c1 n1 c2 n2 :
  turns_account r st input r1 st1 input1 c1 n1 ->
  turns_account r1 st1 input1 r2 st2 input2 c2 n2 ->
  turns_account r st input r2 st2 input2 (c1 ++ c2) (n1 ++ n2).
Proof.
  unfold turns_account.
  intros (A1 & A2 & A3 & A4 & A5 & A6 & A7 & A8)
         (B1 & B2 & B3 & B4 & B5 & B6 & B7 & B8).
  rewrite size_app, header_lines_app.
  repeat split; try congruence; try lia.
  - subst. now rewrite app_assoc.
  - rewrite B2, A2. now rewrite app_assoc.
  - apply Forall_app. now split.
Qed.

Lemma Tokenize_turns_account r st input r' st' input' :
  Tokenize r st input = Returned r' st' input' ->
  exists consumed new, turns_account r st input r' st' input' consumed new.
Proof.
  remember (length input) as n eqn:Hn.
  revert r st input Hn.
  induction n as [n IH] using lt_wf_ind. intros r st input -> H.
  rewrite Tokenize_unfold in H.
  destruct (Tokenize_step r st input) as [|f|r1 st1 input1] eqn:E;
    try discriminate.
  - injection H as <- <- <-. exists [], [].
    unfold turns_account. cbn [app]. rewrite app_nil_r, size_nil.
    cbn [header_lines fold_right]. repeat split; try (now constructor); lia.
  - apply step_consumes in E as L.
    destruct (step_turns_account _ _ _ _ _ _ E) as (c1 & n1 & A).
    destruct (IH (length input1) ltac:(lia) r1 st1 input1 eq_refl H)
      as (c2 & n2 & B).
    exists (c1 ++ c2), (n1 ++ n2). now apply (turns_account_trans _ _ _ _ _ _ _ _ _ _ _ _ _ A B).
Qed.

(** X4.  The decoder only appends to the batch: after a call the batch is
    the batch before the call followed by the commands the call completed,
    which all have at least one token; no command that waited in the batch
    is dropped, changed or moved. *)
Theorem Tokenize_appends_commands r st input r' st' input' :
  Tokenize r st input = Returned r' st' input' ->
  exists new,
    commands_ r' = commands_ r ++ new /\ Forall (fun c => c <> []) new.
Proof.
  intros H.
  destruct (Tokenize_turns_account _ _ _ _ _ _ H)
    as (consumed & new & _ & A & B & _).
  now exists new.
Qed.

Lemma Tokenize_appends_commands_witness :
  exists new,
    commands_ (mkRequest BulkLen 1 1 [str "b"] [[str "a"]; [str "c"]])
    = commands_ (mkRequest ArrayLen 0 0 [] [[str "a"]]) ++ new
    /\ Forall (fun c => c <> []) new.
Proof.
  apply (Tokenize_appends_commands
           (mkRequest ArrayLen 0 0 [] [[str "a"]]) new_stats
           (wire ["*1"; "$1"; "c"; "*2"; "$1"; "b"]%string ++ str "$")
           _ (mkStats 14 0 [] []) (str "$")).
  vm_compute. reflexivity.
Defined.

(** X5.  The decoder drains the buffer from the front only: what a call
    leaves in the buffer is the end of what it was given.  Of the
    counters of the server only the inbound byte counter moves; it never
    goes down and never grows by more than the bytes drained. *)
Theorem Tokenize_drains_a_prefix r st input r' st' input' :
  Tokenize r st input = Returned r' st' input' ->
  exists consumed,
    input = consumed ++ input'
    /\ inbound_bytes st <= inbound_bytes st'
       <= inbound_bytes st + size consumed
    /\ outbound_bytes st' = outbound_bytes st
    /\ calls st' = calls st /\ latencies st' = latencies st.
Proof.
  intros H.
  destruct (Tokenize_turns_account _ _ _ _ _ _ H)
    as (consumed & new & A & _ & _ & B & C & D & E & _).
  exists consumed. repeat split; try assumption; lia.
Qed.

Lemma Tokenize_drains_a_prefix_witness :
  exists consumed,
    wire ["*2"; "$3"; "GET"; "$3"]%string ++ str "fo" = consumed ++ str "fo"
    /\ inbound_bytes new_stats <= inbound_bytes (mkStats 11 0 [] [])
       <= inbound_bytes new_stats + size consumed
    /\ outbound_bytes (mkStats 11 0 [] []) = outbound_bytes new_stats
    /\ calls (mkStats 11 0 [] []) = calls new_stats
    /\ latencies (mkStats 11 0 [] []) = latencies new_stats.
Proof.
  apply (Tokenize_drains_a_prefix new_request new_stats
           (wire ["*2"; "$3"; "GET"; "$3"]%string ++ str "fo")
           (mkRequest BulkData 1 3 [str "GET"] [])).
  vm_compute. reflexivity.
Defined.

(** X6.  What a call adds to the inbound counter, on any bytes: the bytes
    drained, less two bytes for every header line read.  The header lines
    read are one for each command completed and one for each of its
    tokens, and those of the command in progress after the call, less
    those of the command in progress before the call. *)
Theorem Tokenize_inbound_bytes r st input r' st' input' :
  Tokenize r st input = Returned r' st' input' ->
  exists new,
    commands_ r' = commands_ r ++ new
    /\ inbound_bytes st'
       = inbound_bytes st + (size input - size input')
         - 2 * (header_lines new + pending_header_lines r'
                - pending_header_lines r).
Proof.
  intros H.
  destruct (Tokenize_turns_account _ _ _ _ _ _ H)
    as (consumed & new & A & B & _ & _ & _ & _ & _ & C).
  exists new. split; [exact B|]. rewrite C, A, size_app. lia.
Qed.

Lemma Tokenize_inbound_bytes_witness :
  exists new,
    commands_ (mkRequest BulkData 1 3 [str "GET"] [])
    = commands_ new_request ++ new
    /\ inbound_bytes (mkStats 11 0 [] [])
       = inbound_bytes new_stats
         + (size (wire ["*2"; "$3"; "GET"; "$3"]%string ++ str "fo")
            - size (str "fo"))
         - 2 * (header_lines new
                + pending_header_lines (mkRequest BulkData 1 3 [str "GET"] [])
                - pending_header_lines new_request).
Proof.
  apply (Tokenize_inbound_bytes new_request new_stats
           (wire ["*2"; "$3"; "GET"; "$3"]%string ++ str "fo")).
  vm_compute. reflexivity.
Defined.

(** X7.  On the encoding of a batch of well-formed commands a fresh
    decoder drains every byte and counts all of them but two for each
    header line: one line for each command and one for each token. *)
Theorem well_formed_batch_inbound_bytes (cmds : list (list bytes)) st :
  well_formed cmds = true ->
  exists r st',
    Tokenize new_request st (encode_batch cmds) = Returned r st' []
    /\ inbound_bytes st'
       = inbound_bytes st + size (encode_batch cmds) - 2 * header_lines cmds.
Proof.
  intros W.
  destruct (decode_batch cmds new_request st [] eq_refl eq_refl W)
    as (r & st' & E & S & T & B).
  rewrite app_nil_r in E.
  assert (R : Tokenize r st' [] = Returned r st' []).
  { rewrite Tokenize_unfold. unfold Tokenize_step. now rewrite S. }
  rewrite R in E. exists r, st'. split; [exact E|].
  destruct (Tokenize_turns_account _ _ _ _ _ _ E)
    as (consumed & new & A1 & A2 & _ & _ & _ & _ & _ & A3).
  rewrite app_nil_r in A1. subst consumed.
  cbn [commands_ new_request app] in A2. rewrite B in A2. cbn [app] in A2.
  subst new. rewrite A3. unfold pending_header_lines.
  rewrite S, T. cbn [state_ tokens_ new_request]. size_nils.
  change (commands_ new_request ++ cmds) with cmds. lia.
Qed.

Lemma well_formed_batch_inbound_bytes_witness :
  exists r st',
    Tokenize new_request new_stats (encode_batch [[str "GET"; str "foo"]])
    = Returned r st' []
    /\ inbound_bytes st'
       = inbound_bytes new_stats
         + size (encode_batch [[str "GET"; str "foo"]])
         - 2 * header_lines [[str "GET"; str "foo"]].
Proof.
  apply (well_formed_batch_inbound_bytes [[str "GET"; str "foo"]]).
  reflexivity.
Defined.

Lemma step_bulk_data_any r st (token rest : bytes) (x y : ascii) :
  state_ r = BulkData -> bulk_len_ r = Z.to_N (size token) ->
  size token <= string_max_size -> multi_bulk_len_ r <> INT64_MIN ->
  Tokenize_step r st (token ++ x :: y :: rest)
  = if multi_bulk_len_ r - 1 <=? 0
    then Progress (mkRequest ArrayLen (multi_bulk_len_ r - 1) (bulk_len_ r) []
                             (commands_ r ++ [tokens_ r ++ [token]]))
                  (IncrInbondBytes (size token + 2) st) rest
    else Progress (mkRequest BulkLen (multi_bulk_len_ r - 1) (bulk_len_ r)
                             (tokens_ r ++ [token]) (commands_ r))
                  (IncrInbondBytes (size token + 2) st) rest.
Proof.
  intros S B H M. unfold Tokenize_step. rewrite S. cbv zeta.
  pose proof (size_nonneg token) as P. unfold string_max_size in H.
  rewrite B, Z2N.id by exact P.
  unfold wrap64. rewrite Z.mod_small by lia.
  assert ((size (token ++ x :: y :: rest) <? size token + 2) = false) as ->.
  { apply Z.ltb_ge. rewrite size_app, !size_cons.
    pose proof (size_nonneg rest). lia. }
  assert ((string_max_size <? size token) = false) as ->
      by (apply Z.ltb_ge; unfold string_max_size; lia).
  assert ((multi_bulk_len_ r =? INT64_MIN) = false) as ->
      by now apply Z.eqb_neq.
  assert (firstn (Z.to_nat (size token)) (token ++ x :: y :: rest) = token)
    as ->.
  { unfold size. rewrite Nat2Z.id, firstn_app, Nat.sub_diag, firstn_all.
    cbn [firstn]. apply app_nil_r. }
  assert (skipn (Z.to_nat (size token + 2)) (token ++ x :: y :: rest) = rest)
    as ->.
  { replace (Z.to_nat (size token + 2)) with (length token + 2)%nat
      by (unfold size; lia).
    rewrite skipn_app, skipn_all2 by lia.
    replace (length token + 2 - length token)%nat with 2%nat by lia.
    reflexivity. }
  reflexivity.
Qed.

(** X8.  The body of a bulk element is taken by its declared length and
    nothing else: the bytes of the token are kept as they are, whatever
    they are (CR, LF and NUL included), and the two bytes behind them are
    dropped without a look, whatever they are. *)
Theorem bulk_body_is_taken_by_length (token rest : bytes) (x y : ascii) st :
  size token <= string_max_size ->
  exists st',
    Tokenize new_request st
      (wire ["*1"]%string ++ str "$" ++ decimal (size token) ++ CRLF
       ++ token ++ x :: y :: rest)
    = Tokenize (mkRequest ArrayLen 0 (Z.to_N (size token)) [] [[token]])
               st' rest.
Proof.
  intros H. pose proof (size_nonneg token) as P.
  assert (H' := H). unfold string_max_size in H'.
  change (wire ["*1"]%string) with (str "*" ++ decimal 1 ++ CRLF).
  rewrite <- !app_assoc.
  rewrite Tokenize_unfold, step_array_header by (try reflexivity; lia).
  rewrite Tokenize_unfold, step_bulk_header by (try reflexivity; lia).
  rewrite Tokenize_unfold, step_bulk_data_any
    by (try reflexivity; try assumption; cbn; unfold INT64_MIN; lia).
  cbn. eexists. reflexivity.
Qed.

Lemma bulk_body_is_taken_by_length_witness :
  exists st',
    Tokenize new_request new_stats
      (wire ["*1"]%string ++ str "$"
       ++ decimal (size ([CR; LF; NUL] ++ str "a")) ++ CRLF
       ++ ([CR; LF; NUL] ++ str "a") ++ "x"%char :: "y"%char :: str "*")
    = Tokenize (mkRequest ArrayLen 0
                  (Z.to_N (size ([CR; LF; NUL] ++ str "a"))) []
                  [[[CR; LF; NUL] ++ str "a"]])
               st' (str "*").
Proof.
  apply (bulk_body_is_taken_by_length ([CR; LF; NUL] ++ str "a") (str "*")).
  unfold string_max_size. cbn. lia.
Defined.

Lemma readln_first (c : ascii) (rest : bytes) :
  is_byte 13 c = false ->
  evbuffer_readln (c :: rest)
  = match evbuffer_readln rest with
    | Some (line, after) => Some (c :: line, after)
    | None => None
    end.
Proof.
  intros H. destruct rest as [|d rest']; [reflexivity|].
  now rewrite readln_unfold, H.
Qed.

(** X9.  The first byte of a header line is not looked at: in the states
    that read a header line, on a buffer that holds a whole line, the
    decoder does the same whatever the first byte is, as long as it is not
    a CR.  A line [$2] is an array header as good as [*2]. *)
Theorem header_marker_is_not_checked r st (c c' : ascii) (rest : bytes) :
  state_ r <> BulkData ->
  is_byte 13 c = false -> is_byte 13 c' = false ->
  evbuffer_readln rest <> None ->
  Tokenize r st (c :: rest) = Tokenize r st (c' :: rest).
Proof.
  intros S C C' L.
  rewrite (Tokenize_unfold r st (c :: rest)),
          (Tokenize_unfold r st (c' :: rest)).
  unfold Tokenize_step.
  rewrite (readln_first c), (readln_first c') by assumption.
  destruct (evbuffer_readln rest) as [[line after]|]; [|congruence].
  change (array_len_of_line (c :: line)) with (array_len_of_line (c' :: line)).
  change (bulk_len_of_line (c :: line)) with (bulk_len_of_line (c' :: line)).
  change (size (c :: line)) with (size (c' :: line)).
  destruct (state_ r); [| |congruence].
  - now destruct (array_len_of_line (c' :: line)).
  - now destruct (bulk_len_of_line (c' :: line)).
Qed.

Lemma header_marker_is_not_checked_witness :
  Tokenize new_request new_stats (wire ["$1"; "$1"; "a"]%string)
  = Tokenize new_request new_stats (wire ["*1"; "$1"; "a"]%string).
Proof.
  apply (header_marker_is_not_checked new_request new_stats "$"%char "*"%char
           (str "1" ++ CRLF ++ wire ["$1"; "a"]%string));
    [discriminate | reflexivity | reflexivity | discriminate].
Defined.

(** * Further properties of the dispatcher *)

Section DispatchMore.

Variable Commander : Type.
Variable kCloseAfterReply : Z.
Variable LookupCommand : bytes -> bool -> option Commander.
Variable GetArity : Commander -> Z.
Variable IsWrite : Commander -> bool.
Variable Name : Commander -> bytes.
Variable Parse : Commander -> list bytes -> Status.
Variable Execute :
  Commander -> list bytes -> World Commander -> bytes
  -> Status * bytes * Z * World Commander.

Local Abbreviation call := (call_command Commander Name Execute).
Local Abbreviation process :=
  (process_command Commander LookupCommand GetArity IsWrite Name Parse
                   Execute).
Local Abbreviation loop :=
  (ExecuteCommands_loop Commander kCloseAfterReply LookupCommand GetArity
                        IsWrite Name Parse Execute).
Local Abbreviation execute_commands :=
  (ExecuteCommands Commander kCloseAfterReply LookupCommand GetArity
                   IsWrite Name Parse Execute).

(** X10.  A command takes one of two ways through the body of the loop.
    Either it was found in the registry, its arguments parsed, and it is
    called; or it is rejected, and then all that happens is one error
    reply: the output grows by that reply and the outbound counter by its
    length, the [reply] string stays, and the call counters, the
    latencies, the slow log, the error log, the registry of channels, the
    last command, the flags, the namespace and the channels of the session
    are as before. *)
Theorem rejected_command_leaves_only_a_reply
        cmd_tokens reply (w : World Commander) reply' w' :
  process cmd_tokens reply w = Finished (reply', w') ->
  (exists cmd front args,
      cmd_tokens = front :: args
      /\ LookupCommand front (repl_ (conn_ w)) = Some cmd
      /\ Parse cmd cmd_tokens = OK
      /\ (reply', w')
         = call cmd cmd_tokens reply
                (mkWorld (svr_ w) (with_current_cmd cmd (conn_ w))))
  \/ (reply' = reply
      /\ exists msg,
          output_ (conn_ w') = output_ (conn_ w) ++ Error msg
          /\ stats_ (svr_ w')
             = IncrOutbondBytes (size (Error msg)) (stats_ (svr_ w))
          /\ slowlog_ (svr_ w') = slowlog_ (svr_ w)
          /\ errors_ (svr_ w') = errors_ (svr_ w)
          /\ pubsub_ (svr_ w') = pubsub_ (svr_ w)
          /\ last_cmd_ (conn_ w') = last_cmd_ (conn_ w)
          /\ flags_ (conn_ w') = flags_ (conn_ w)
          /\ ns_ (conn_ w') = ns_ (conn_ w)
          /\ subscribe_channels_ (conn_ w')
             = subscribe_channels_ (conn_ w)).
Proof.
  intros H. unfold process_command in H.
  destruct cmd_tokens as [|front args]; [discriminate|].
  destruct (_ && _).
  { injection H as <- <-. right. split; [reflexivity|].
    eexists. repeat split. }
  destruct (LookupCommand front (repl_ (conn_ w))) as [cmd|] eqn:L.
  2:{ injection H as <- <-. right. split; [reflexivity|].
      eexists. repeat split. }
  cbv zeta in H. destruct (wrong_arity _ _).
  { injection H as <- <-. right. split; [reflexivity|].
    eexists. repeat split. }
  unfold parse_command in H.
  destruct (Parse cmd (front :: args)) as [|msg] eqn:P.
  2:{ injection H as <- <-. right. split; [reflexivity|].
      eexists. repeat split. }
  destruct (_ && _).
  { injection H as <- <-. right. split; [reflexivity|].
    eexists. repeat split. }
  left. exists cmd, front, args. repeat split; try assumption.
  now injection H.
Qed.

Lemma outbound_gap_Reply msg (w : World Commander) :
  outbound_gap (Reply msg w) = outbound_gap w.
Proof. unfold outbound_gap, Reply. cbn. rewrite size_app. lia. Qed.

Lemma outbound_gap_call cmd cmd_tokens reply (w : World Commander) :
  (forall cmd tokens w0 reply0,
      outbound_gap (snd (Execute cmd tokens w0 reply0)) = outbound_gap w0) ->
  outbound_gap (snd (call cmd cmd_tokens reply w)) = outbound_gap w.
Proof.
  intros X. unfold call_command.
  match goal with
  | |- context [Execute cmd cmd_tokens ?w0 reply] =>
      specialize (X cmd cmd_tokens w0 reply);
      destruct (Execute cmd cmd_tokens w0 reply) as [[[s reply1] d] w1]
  end.
  cbn [snd] in X.
  destruct s as [|msg].
  - cbn [snd]. destruct (bytes_eqb reply1 []).
    + exact X.
    + rewrite outbound_gap_Reply. exact X.
  - cbn [snd]. etransitivity; [|exact X].
    etransitivity; [|apply (outbound_gap_Reply (Error (str "ERR " ++ msg)))].
    reflexivity.
Qed.

Lemma outbound_gap_process cmd_tokens reply (w : World Commander) reply' w' :
  (forall cmd tokens w0 reply0,
      outbound_gap (snd (Execute cmd tokens w0 reply0)) = outbound_gap w0) ->
  process cmd_tokens reply w = Finished (reply', w') ->
  outbound_gap w' = outbound_gap w.
Proof.
  intros X H. unfold process_command in H.
  destruct cmd_tokens as [|front args]; [discriminate|].
  destruct (_ && _);
    [injection H as <- <-; apply outbound_gap_Reply|].
  destruct (LookupCommand front (repl_ (conn_ w))) as [cmd|];
    [|injection H as <- <-; apply outbound_gap_Reply].
  cbv zeta in H.
  destruct (wrong_arity _ _);
    [injection H as <- <-; now rewrite outbound_gap_Reply|].
  unfold parse_command in H.
  destruct (Parse cmd (front :: args)) as [|msg];
    [|injection H as <- <-; now rewrite outbound_gap_Reply].
  destruct (_ && _);
    [injection H as <- <-; now rewrite outbound_gap_Reply|].
  apply (f_equal (fun x => match x with Finished (_, v) => outbound_gap v
                                   | _ => 0 end)) in H.
  rewrite <- H.
  match goal with
  | |- context [call ?c ?t ?rp ?w0] =>
      pose proof (outbound_gap_call c t rp w0 X) as G;
      destruct (call c t rp w0) as [rp1 w1]
  end.
  exact G.
Qed.

Lemma outbound_gap_loop cmds : forall reply (w w' : World Commander),
  (forall cmd tokens w0 reply0,
      outbound_gap (snd (Execute cmd tokens w0 reply0)) = outbound_gap w0) ->
  loop cmds reply w = Finished w' ->
  outbound_gap w' = outbound_gap w.
Proof.
  induction cmds as [|c cmds IH]; intros reply w w' X H.
  - now injection H as <-.
  - cbn [ExecuteCommands_loop] in H.
    destruct (IsFlagEnabled kCloseAfterReply (conn_ w));
      [now injection H as <-|].
    destruct (process c reply w) as [[reply1 w1]|f|] eqn:P; try discriminate.
    rewrite (IH reply1 w1 w' X H).
    exact (outbound_gap_process c reply w reply1 w1 X P).
Qed.

(** X11.  The dispatcher keeps the outbound byte counter in step with the
    output buffer: when no command moves the one without the other, the
    bytes counted and the bytes written differ after [ExecuteCommands] by
    what they differed before, on every way through it: the loading
    error, the errors of the rejected commands, the errors and the
    replies of the commands called. *)
Theorem outbound_bytes_follow_the_output r (w : World Commander) r' w' :
  (forall cmd tokens w0 reply0,
      outbound_gap (snd (Execute cmd tokens w0 reply0)) = outbound_gap w0) ->
  execute_commands r w = Finished (r', w') ->
  outbound_gap w' = outbound_gap w.
Proof.
  intros X H. unfold ExecuteCommands in H.
  destruct (commands_ r) as [|c cmds]; [now injection H as _ <-|].
  destruct (is_loading_ (svr_ w)).
  - injection H as _ <-. apply outbound_gap_Reply.
  - destruct (loop (c :: cmds) [] w) as [w1|f|] eqn:L; try discriminate.
    injection H as _ <-. exact (outbound_gap_loop _ _ _ _ X L).
Qed.

(** X12.  A command that sets the close-after-reply flag ends the batch:
    when the first command of a batch leaves the flag set, the commands
    behind it are neither answered nor called, the world is the one
    that command left, and the batch is emptied all the same. *)
Theorem close_after_reply_ends_the_batch
        r (w : World Commander) c rest reply' w' :
  commands_ r = c :: rest ->
  is_loading_ (svr_ w) = false ->
  IsFlagEnabled kCloseAfterReply (conn_ w) = false ->
  process c [] w = Finished (reply', w') ->
  IsFlagEnabled kCloseAfterReply (conn_ w') = true ->
  execute_commands r w = Finished (clear_commands r, w').
Proof.
  intros C L F P F'. unfold ExecuteCommands. rewrite C, L.
  cbn [ExecuteCommands_loop]. rewrite F, P.
  destruct rest as [|c2 rest]; [reflexivity|].
  cbn [ExecuteCommands_loop]. now rewrite F'.
Qed.

(** X13.  The [reply] string is not emptied between two commands of a
    batch.  A command that is called, succeeds and leaves the string as
    it got it (it wrote its answer itself) makes the loop send what an
    earlier command left in the string once more. *)
Theorem reply_string_is_carried_over
        front args rest reply (w : World Commander) cmd (d : Z) w2 :
  let cmd_tokens := front :: args in
  let w1 :=
    mkWorld (with_stats (IncrCalls (Name cmd)) (svr_ w))
            (SetLastCmd Commander (Name cmd)
                        (with_current_cmd cmd (conn_ w))) in
  let w3 :=
    mkWorld (with_stats (IncrLatency d (Name cmd))
               (SlowlogPushEntryIfNeeded cmd_tokens d (svr_ w2)))
            (conn_ w2) in
  IsFlagEnabled kCloseAfterReply (conn_ w) = false ->
  ns_ (conn_ w) <> [] \/ ToLower front = str "auth" ->
  LookupCommand front (repl_ (conn_ w)) = Some cmd ->
  wrong_arity (GetArity cmd) (to_int (size cmd_tokens)) = false ->
  Parse cmd cmd_tokens = OK ->
  slave_readonly (config_ (svr_ w)) && is_slave_ (svr_ w) && IsWrite cmd
  = false ->
  Execute cmd cmd_tokens w1 reply = (OK, reply, d, w2) ->
  reply <> [] ->
  loop (cmd_tokens :: rest) reply w = loop rest reply (Reply reply w3)
  /\ output_ (conn_ (Reply reply w3)) = output_ (conn_ w2) ++ reply.
Proof.
  intros cmd_tokens w1 w3 F A L W P G E N. subst cmd_tokens.
  split; [|reflexivity].
  apply loop_continue; [exact F|].
  rewrite (process_resolved Commander LookupCommand GetArity IsWrite Name
             Parse Execute front args reply w cmd A L).
  rewrite W. unfold parse_command. rewrite P.
  cbn [svr_]. rewrite G. unfold call_command. cbn [svr_ conn_].
  fold w1. rewrite E. apply bytes_eqb_neq in N. now rewrite N.
Qed.

End DispatchMore.

Lemma rejected_command_leaves_only_a_reply_witness :
  exists msg,
    output_ (conn_ (Reply (Error (str "NOAUTH Authentication required."))
                          Demo.guest))
    = output_ (conn_ Demo.guest) ++ Error msg.
Proof.
  destruct (rejected_command_leaves_only_a_reply Demo.Command
              Demo.LookupCommand Demo.GetArity Demo.IsWrite Demo.Name
              Demo.Parse Demo.Execute [str "GET"; str "foo"] [] Demo.guest []
              (Reply (Error (str "NOAUTH Authentication required."))
                     Demo.guest) eq_refl)
    as [(cmd & front & args & T & L & _ & E) | (_ & msg & O & _)].
  - injection T as <- <-. vm_compute in L. injection L as <-.
    vm_compute in E. discriminate E.
  - exists msg. exact O.
Defined.

Lemma outbound_bytes_follow_the_output_witness :
  exists r' w',
    Demo.ExecuteCommands
      (mkRequest ArrayLen 0 1 [] [[str "GET"; str "a"]; [str "NOP"]])
      Demo.user
    = Finished (r', w')
    /\ outbound_gap w' = outbound_gap Demo.user.
Proof.
  do 2 eexists. split; [vm_compute; reflexivity|].
  eapply (outbound_bytes_follow_the_output Demo.Command Demo.kCloseAfterReply
            Demo.LookupCommand Demo.GetArity Demo.IsWrite Demo.Name
            Demo.Parse Demo.Execute
            (mkRequest ArrayLen 0 1 [] [[str "GET"; str "a"]; [str "NOP"]])
            Demo.user).
  - intros [] tokens w0 reply0; reflexivity.
  - vm_compute. reflexivity.
Defined.

Lemma close_after_reply_ends_the_batch_witness :
  exists w',
    Pipeline.ExecuteCommands
      (mkRequest ArrayLen 0 4 [] [[str "QUIT"]; [str "PING"]]) Pipeline.user
    = Finished
        (clear_commands
           (mkRequest ArrayLen 0 4 [] [[str "QUIT"]; [str "PING"]]), w')
    /\ output_ (conn_ w') = str "+OK" ++ CRLF
    /\ calls (stats_ (svr_ w')) = [str "quit"].
Proof.
  eexists. split.
  - eapply (close_after_reply_ends_the_batch Pipeline.Command
              Pipeline.kCloseAfterReply Pipeline.LookupCommand
              Pipeline.GetArity Pipeline.IsWrite Pipeline.Name Pipeline.Parse
              Pipeline.Execute
              (mkRequest ArrayLen 0 4 [] [[str "QUIT"]; [str "PING"]])
              Pipeline.user [str "QUIT"] [[str "PING"]]);
      [reflexivity | reflexivity | reflexivity
       | vm_compute; reflexivity | reflexivity].
  - split; reflexivity.
Defined.

(** A batch of [ping] and [subscribe]: the answer to [ping] is sent
    twice, in front of and behind the answer that [subscribe] wrote. *)
Example ping_is_answered_twice :
  exists r w,
    Pipeline.ExecuteCommands
      (mkRequest ArrayLen 0 4 [] [[str "PING"]; [str "SUBSCRIBE"; str "news"]])
      Pipeline.user
    = Finished (r, w)
    /\ output_ (conn_ w)
       = str "+PONG" ++ CRLF ++ str ":1" ++ CRLF ++ str "+PONG" ++ CRLF.
Proof.
  do 2 eexists. split; vm_compute; reflexivity.
Qed.

Lemma reply_string_is_carried_over_witness :
  exists w3,
    Pipeline.loop [[str "SUBSCRIBE"; str "news"]] (str "+PONG" ++ CRLF)
                  Pipeline.user
    = Pipeline.loop [] (str "+PONG" ++ CRLF)
                    (Reply (str "+PONG" ++ CRLF) w3)
    /\ output_ (conn_ (Reply (str "+PONG" ++ CRLF) w3))
       = (str ":1" ++ CRLF) ++ str "+PONG" ++ CRLF.
Proof.
  eexists.
  edestruct (reply_string_is_carried_over Pipeline.Command
               Pipeline.kCloseAfterReply Pipeline.LookupCommand
               Pipeline.GetArity Pipeline.IsWrite Pipeline.Name
               Pipeline.Parse Pipeline.Execute (str "SUBSCRIBE")
               [str "news"] [] (str "+PONG" ++ CRLF) Pipeline.user
               Pipeline.Subscribe) as [H1 H2];
    [reflexivity | left; discriminate | reflexivity | reflexivity
     | reflexivity | reflexivity | reflexivity | discriminate |].
  split; [exact H1 | exact H2].
Defined.

(** * Further properties of the session *)

Section SessionFacts.

Variable Commander : Type.
Implicit Types (w : World Commander) (channel : bytes).

Lemma subscribe_each_distinct (channels : list bytes) : forall w,
  NoDup (subscribe_channels_ (conn_ w)) ->
  exists new,
    subscribe_channels_ (conn_ (subscribe_each channels w))
    = subscribe_channels_ (conn_ w) ++ new
    /\ NoDup (subscribe_channels_ (conn_ (subscribe_each channels w)))
    /\ (forall c, In c new <->
                  In c channels /\ ~ In c (subscribe_channels_ (conn_ w)))
    /\ pubsub_ (svr_ (subscribe_each channels w))
       = pubsub_ (svr_ w)
         ++ map (fun c => RegSubscribe c (fd_ (conn_ w))) new
    /\ fd_ (conn_ (subscribe_each channels w)) = fd_ (conn_ w).
Proof.
  induction channels as [|ch channels IH]; intros w N.
  - exists []. cbn. rewrite !app_nil_r. repeat split; try assumption;
      try tauto.
  - cbn [subscribe_each fold_left].
    fold (subscribe_each channels (SubscribeChannel ch w)).
    destruct (in_dec (list_eq_dec ascii_dec) ch
                     (subscribe_channels_ (conn_ w))) as [I | I].
    + rewrite (SubscribeChannel_subscribed _ ch w I).
      destruct (IH w N) as (new & A & B & C & D & E).
      exists new. repeat split; try assumption.
      * apply C in H. destruct H as [H1 H2]. now right.
      * apply C in H. tauto.
      * intros [[<- | H1] H2]; [contradiction|]. apply C. now split.
    + destruct (SubscribeChannel_new _ ch w I) as [S1 S2].
      assert (F : fd_ (conn_ (SubscribeChannel ch w)) = fd_ (conn_ w)).
      { unfold SubscribeChannel.
        now destruct (existsb (bytes_eqb ch) (subscribe_channels_ (conn_ w))). }
      destruct (IH (SubscribeChannel ch w)
                   (SubscribeChannel_NoDup _ ch w N))
        as (new & A & B & C & D & E).
      exists (ch :: new). rewrite A, D, S1, S2, E, F, <- !app_assoc.
      repeat split; try reflexivity.
      * rewrite A, S1, <- app_assoc in B. exact B.
      * destruct H as [<- | H]; [now left|]. apply C in H. right. tauto.
      * destruct H as [<- | H]; [exact I|]. apply C in H.
        rewrite S1 in H. intros J. apply H. apply in_or_app. now left.
      * intros [[<- | H1] H2]; [now left|].
        destruct (list_eq_dec ascii_dec ch c) as [<- | Ne]; [now left|].
        right. apply C. split; [exact H1|]. rewrite S1. intros J.
        apply in_app_or in J. destruct J as [J | [J | []]]; congruence.
Qed.

Lemma UnSubscribeChannel_absent channel w :
  ~ In channel (subscribe_channels_ (conn_ w)) ->
  UnSubscribeChannel channel w = Finished w.
Proof.
  intros N. unfold UnSubscribeChannel.
  replace (2 + length (subscribe_channels_ (conn_ w)))%nat
    with (length (subscribe_channels_ (conn_ w)) + 2)%nat by lia.
  rewrite UnSubscribe_loop_skip.
  - rewrite UnSubscribe_loop_S. cbv zeta. cbn [Nat.add].
    now rewrite Nat.eqb_refl.
  - intros j Hj.
    destruct (nth_error (subscribe_channels_ (conn_ w)) j) as [c|] eqn:E.
    + exists c. split; [reflexivity|]. intros ->.
      apply N. eapply nth_error_In. exact E.
    + apply nth_error_None in E. lia.
Qed.

Lemma unsubscribe_log (fd : Z) (l : list bytes) : forall s : Server,
  fold_left (fun s chan => with_pubsub (RegUnSubscribe chan fd) s) l s
  = mkServer (stats_ s) (is_loading_ s) (is_slave_ s) (config_ s)
             (pubsub_ s ++ map (fun c => RegUnSubscribe c fd) l)
             (slowlog_ s) (errors_ s).
Proof.
  induction l as [|c l IH]; intros s.
  - cbn. rewrite app_nil_r. now destruct s.
  - cbn [fold_left map]. rewrite IH. unfold with_pubsub. cbn.
    now rewrite <- app_assoc.
Qed.

End SessionFacts.

Section SessionProperties.

Variable Commander : Type.
Implicit Types (w : World Commander) (channel : bytes).

(** X14.  However often and in whatever order a session subscribes, its
    channels stay distinct: the channels it did not have are added at the
    end, in the order of their first subscription, each one once, and the
    registry is told of each of them once and of no other. *)
Theorem subscriptions_stay_distinct (channels : list bytes) w :
  NoDup (subscribe_channels_ (conn_ w)) ->
  exists new,
    subscribe_channels_ (conn_ (subscribe_each channels w))
    = subscribe_channels_ (conn_ w) ++ new
    /\ NoDup (subscribe_channels_ (conn_ (subscribe_each channels w)))
    /\ (forall c, In c new <->
                  In c channels /\ ~ In c (subscribe_channels_ (conn_ w)))
    /\ pubsub_ (svr_ (subscribe_each channels w))
       = pubsub_ (svr_ w)
         ++ map (fun c => RegSubscribe c (fd_ (conn_ w))) new.
Proof.
  intros N.
  destruct (subscribe_each_distinct Commander channels w N)
    as (new & A & B & C & D & _).
  now exists new.
Qed.

(** X15.  Unsubscribing from a channel the session does not have, an
    empty list of channels included, changes nothing: the channels stay
    and the registry is not told. *)
Theorem unsubscribe_unknown_channel_is_idle channel w :
  ~ In channel (subscribe_channels_ (conn_ w)) ->
  UnSubscribeChannel channel w = Finished w.
Proof. apply UnSubscribeChannel_absent. Qed.


(** X17.  A session without channels subscribes to channels and then
    [UnSubscribeAll] is called: no channel is left, and the registry was
    told to subscribe and then to unsubscribe the same distinct channels,
    in the same order, each one once, and these are the channels that
    were asked for. *)
Theorem subscribe_then_unsubscribe_all (channels : list bytes) w :
  subscribe_channels_ (conn_ w) = [] ->
  let w' := UnSubscribeAll (subscribe_each channels w) in
  exists subscribed,
    NoDup subscribed
    /\ (forall c, In c subscribed <-> In c channels)
    /\ subscribe_channels_ (conn_ w') = []
    /\ SubscriptionsCount w' = 0
    /\ pubsub_ (svr_ w')
       = pubsub_ (svr_ w)
         ++ map (fun c => RegSubscribe c (fd_ (conn_ w))) subscribed
         ++ map (fun c => RegUnSubscribe c (fd_ (conn_ w))) subscribed.
Proof.
  intros E w'.
  assert (N : NoDup (subscribe_channels_ (conn_ w)))
    by (rewrite E; constructor).
  destruct (subscribe_each_distinct Commander channels w N)
    as (new & A & B & C & D & F).
  rewrite E in A, C. cbn [app] in A.
  exists new. subst w'. unfold UnSubscribeAll, SubscriptionsCount.
  rewrite A in B. rewrite A.
  split; [exact B|]. split.
  { intros c. rewrite C. cbn. tauto. }
  destruct new as [|c new].
  - rewrite A. cbn [map]. rewrite D. cbn [map]. now rewrite !app_nil_r.
  - cbn [conn_ svr_ with_channels subscribe_channels_].
    repeat split. rewrite unsubscribe_log. cbn [pubsub_].
    rewrite D, F, <- app_assoc. reflexivity.
Qed.

End SessionProperties.

Lemma subscriptions_stay_distinct_witness :
  exists new,
    subscribe_channels_
      (conn_ (subscribe_each [str "a"; str "b"; str "a"; str "c"]
                             (Demo.subscriber [str "c"])))
    = subscribe_channels_ (conn_ (Demo.subscriber [str "c"])) ++ new
    /\ NoDup (subscribe_channels_
                (conn_ (subscribe_each [str "a"; str "b"; str "a"; str "c"]
                                       (Demo.subscriber [str "c"]))))
    /\ (forall c, In c new <->
                  In c [str "a"; str "b"; str "a"; str "c"]
                  /\ ~ In c (subscribe_channels_
                               (conn_ (Demo.subscriber [str "c"]))))
    /\ pubsub_ (svr_ (subscribe_each [str "a"; str "b"; str "a"; str "c"]
                                     (Demo.subscriber [str "c"])))
       = pubsub_ (svr_ (Demo.subscriber [str "c"]))
         ++ map (fun c => RegSubscribe
                            c (fd_ (conn_ (Demo.subscriber [str "c"])))) new.
Proof.
  apply (subscriptions_stay_distinct Demo.Command).
  cbn. repeat constructor. intros [].
Defined.

Lemma unsubscribe_unknown_channel_is_idle_witness :
  UnSubscribeChannel (str "news") (Demo.subscriber [str "a"; str "b"])
  = Finished (Demo.subscriber [str "a"; str "b"]).
Proof.
  apply (unsubscribe_unknown_channel_is_idle Demo.Command).
  cbn. intros [H | [H | []]]; discriminate H.
Defined.


Lemma subscribe_then_unsubscribe_all_witness :
  exists subscribed,
    NoDup subscribed
    /\ (forall c, In c subscribed <-> In c [str "a"; str "b"; str "a"])
    /\ subscribe_channels_
         (conn_ (UnSubscribeAll
                   (subscribe_each [str "a"; str "b"; str "a"]
                                   (Demo.subscriber [])))) = []
    /\ SubscriptionsCount
         (UnSubscribeAll (subscribe_each [str "a"; str "b"; str "a"]
                                         (Demo.subscriber []))) = 0
    /\ pubsub_ (svr_ (UnSubscribeAll
                        (subscribe_each [str "a"; str "b"; str "a"]
                                        (Demo.subscriber []))))
       = pubsub_ (svr_ (Demo.subscriber []))
         ++ map (fun c => RegSubscribe c (fd_ (conn_ (Demo.subscriber []))))
                subscribed
         ++ map (fun c => RegUnSubscribe c (fd_ (conn_ (Demo.subscriber []))))
                subscribed.
Proof.
  apply (subscribe_then_unsubscribe_all Demo.Command [str "a"; str "b"; str "a"]
           (Demo.subscriber [])).
  reflexivity.
Defined.

(** ** Flags and the callbacks of the transport *)

Lemma land_lor_absorb (a f : Z) : Z.land (Z.lor a f) f = f.
Proof.
  apply Z.bits_inj'. intros n _.
  rewrite Z.land_spec, Z.lor_spec.
  destruct (Z.testbit a n), (Z.testbit f n); reflexivity.
Qed.

Lemma land_pow2 (e k : Z) :
  0 <= k -> Z.land e (2 ^ k) = if Z.testbit e k then 2 ^ k else 0.
Proof.
  intros K. apply Z.bits_inj'. intros n N.
  rewrite Z.land_spec, Z.pow2_bits_eqb by exact K.
  destruct (Z.eqb_spec k n) as [<- | Ne].
  - destruct (Z.testbit e k).
    + rewrite Z.pow2_bits_true by exact K. reflexivity.
    + rewrite Z.bits_0. reflexivity.
  - rewrite andb_false_r.
    destruct (Z.testbit e k).
    + rewrite Z.pow2_bits_false by congruence. reflexivity.
    + rewrite Z.bits_0. reflexivity.
Qed.

Lemma land_pow2_eqb (e k : Z) :
  0 <= k -> Z.eqb (Z.land e (2 ^ k)) 0 = negb (Z.testbit e k).
Proof.
  intros K. rewrite land_pow2 by exact K.
  destruct (Z.testbit e k); [|reflexivity].
  apply Z.eqb_neq. pose proof (Z.pow_pos_nonneg 2 k). lia.
Qed.

Ltac among_effects :=
  repeat match goal with
         | H : _ \/ _ |- _ => destruct H
         | H : _ /\ _ |- _ => destruct H
         | H : False |- _ => destruct H
         | H : _ = _ |- _ => discriminate H
         end.

Section Callbacks.

Variable Commander : Type.
Implicit Types (c : Connection Commander).

Lemma flags_keep_a_set_flag (others : list Z) : forall c (flag : Z),
  Z.land (flags_ c) flag = flag ->
  Z.land (flags_ (fold_left (fun c f => SetFlag f c) others c)) flag = flag
  /\ fd_ (fold_left (fun c f => SetFlag f c) others c) = fd_ c.
Proof.
  induction others as [|g others IH]; intros c flag H; [now split|].
  cbn [fold_left].
  destruct (IH (SetFlag g c) flag) as [A B].
  - cbn [SetFlag flags_].
    apply Z.bits_inj'. intros n _.
    apply (f_equal (fun z => Z.testbit z n)) in H.
    rewrite Z.land_spec in H. rewrite Z.land_spec, Z.lor_spec.
    destruct (Z.testbit (flags_ c) n), (Z.testbit g n), (Z.testbit flag n);
      try reflexivity; discriminate H.
  - split; [exact A | exact B].
Qed.

(** X18.  A flag that was set is seen, whatever flags are set after it:
    for a mask above zero, [IsFlagEnabled] answers yes after [SetFlag] and
    after any further calls of [SetFlag]; for the close-after-reply flag
    the next [OnWrite] then asks the owner to remove this session, and no
    other. *)
Theorem set_flag_is_seen (flag : Z) (others : list Z) c :
  0 < flag ->
  let c' := fold_left (fun c f => SetFlag f c) others (SetFlag flag c) in
  IsFlagEnabled flag (SetFlag flag c) = true
  /\ IsFlagEnabled flag c' = true
  /\ OnWrite flag c' = [RemoveConnection (fd_ c)].
Proof.
  intros F c'.
  assert (S : Z.land (flags_ (SetFlag flag c)) flag = flag)
    by apply land_lor_absorb.
  destruct (flags_keep_a_set_flag others (SetFlag flag c) flag S) as [A B].
  fold c' in A, B.
  assert (E : IsFlagEnabled flag c' = true).
  { unfold IsFlagEnabled. rewrite A. now apply Z.ltb_lt. }
  split; [|split; [exact E|]].
  - unfold IsFlagEnabled. rewrite S. now apply Z.ltb_lt.
  - unfold OnWrite. rewrite E, B. reflexivity.
Qed.

(** X19.  What [OnEvent] does is decided by three bits of [events].  The
    owner is asked to remove the session exactly when the end-of-file bit
    or the error bit is set; reading and writing are enabled again exactly
    when the timeout bit is set and neither of the two others is; the
    error is logged exactly when the error bit is set.  A session is
    never both removed and enabled again. *)
Theorem OnEvent_by_bits (events : Z) c :
  let eof := Z.testbit events 4 in
  let error := Z.testbit events 5 in
  let timeout := Z.testbit events 6 in
  (In (RemoveConnection (fd_ c)) (OnEvent events c)
   <-> eof || error = true)
  /\ (In EnableReadWrite (OnEvent events c)
      <-> timeout && negb eof && negb error = true)
  /\ (In LogBevError (OnEvent events c) <-> error = true)
  /\ ~ (In (RemoveConnection (fd_ c)) (OnEvent events c)
        /\ In EnableReadWrite (OnEvent events c)).
Proof.
  intros eof error timeout. unfold OnEvent.
  assert (M : Z.eqb (Z.land events (Z.lor BEV_EVENT_EOF BEV_EVENT_ERROR)) 0
              = negb (eof || error)).
  { rewrite Z.land_lor_distr_r.
    change BEV_EVENT_EOF with (2 ^ 4). change BEV_EVENT_ERROR with (2 ^ 5).
    rewrite !land_pow2 by lia. fold eof. fold error.
    destruct eof, error; reflexivity. }
  rewrite M.
  change BEV_EVENT_ERROR with (2 ^ 5). change BEV_EVENT_TIMEOUT with (2 ^ 6).
  rewrite !land_pow2_eqb by lia. fold error. fold timeout.
  destruct eof, error, timeout; cbn; repeat split;
    try (intros H; among_effects); try reflexivity; try discriminate;
    auto 6.
Qed.

End Callbacks.

Lemma set_flag_is_seen_witness :
  IsFlagEnabled 64 (SetFlag 64 (Demo.session [] [])) = true
  /\ IsFlagEnabled 64
       (fold_left (fun c f => SetFlag f c) [1; 2]
                  (SetFlag 64 (Demo.session [] []))) = true
  /\ OnWrite 64
       (fold_left (fun c f => SetFlag f c) [1; 2]
                  (SetFlag 64 (Demo.session [] [])))
     = [RemoveConnection (fd_ (Demo.session [] []))].
Proof.
  apply (set_flag_is_seen Demo.Command 64 [1; 2] (Demo.session [] [])).
  lia.
Defined.

(** ** Age and idle time *)

Lemma after_reads_between (t0 now : Z) (reads : list Z) : forall t : Times,
  t0 <= last_interaction_ t <= now ->
  Forall (fun read => t0 <= read <= now) reads ->
  create_time_ (after_reads reads t) = create_time_ t
  /\ t0 <= last_interaction_ (after_reads reads t) <= now.
Proof.
  induction reads as [|read reads IH]; intros t H F; [now split|].
  inversion F as [|? ? F1 F2]; subst.
  cbn [after_reads fold_left].
  destruct (IH (SetLastInteraction read t)) as [A B]; [exact F1 | exact F2|].
  split; [exact A | exact B].
Qed.

(** X20.  For a session made at time [t0] whose read events all came
    between [t0] and [now], the idle time at [now] is at most the age at
    [now], the age is the time since [t0], and neither wraps around;
    and right after a read event the idle time is zero. *)
Theorem idle_time_is_at_most_age (t0 now : Z) (reads : list Z) :
  t0 <= now -> now - t0 < 2 ^ 64 ->
  Forall (fun read => t0 <= read <= now) reads ->
  let t := after_reads reads (new_times t0) in
  GetAge now t = now - t0
  /\ GetIdleTime now t = now - last_interaction_ t
  /\ GetIdleTime now t <= GetAge now t
  /\ GetIdleTime now (SetLastInteraction now t) = 0.
Proof.
  intros H B F t.
  destruct (after_reads_between t0 now reads (new_times t0)) as [A1 A2];
    [cbn; lia | exact F |].
  fold t in A1, A2. cbn [new_times create_time_] in A1.
  assert (GA : GetAge now t = now - t0).
  { unfold GetAge, wrap64. rewrite A1. apply Z.mod_small. lia. }
  assert (GI : GetIdleTime now t = now - last_interaction_ t).
  { unfold GetIdleTime, wrap64. apply Z.mod_small. lia. }
  repeat split; try assumption.
  - rewrite GA, GI. lia.
  - unfold GetIdleTime, SetLastInteraction. cbn [last_interaction_].
    now rewrite Z.sub_diag.
Qed.

Lemma idle_time_is_at_most_age_witness :
  GetAge 130 (after_reads [100; 110; 125] (new_times 100)) = 130 - 100
  /\ GetIdleTime 130 (after_reads [100; 110; 125] (new_times 100))
     = 130 - last_interaction_ (after_reads [100; 110; 125] (new_times 100))
  /\ GetIdleTime 130 (after_reads [100; 110; 125] (new_times 100))
     <= GetAge 130 (after_reads [100; 110; 125] (new_times 100))
  /\ GetIdleTime 130
       (SetLastInteraction 130
          (after_reads [100; 110; 125] (new_times 100))) = 0.
Proof.
  apply (idle_time_is_at_most_age 100 130 [100; 110; 125]);
    [lia | lia | repeat constructor; lia].
Defined.

(** * Where a read event can go wrong *)

(** X21.  The decoder leaves the defined behaviour in three places only:
    an empty line where a bulk header is expected, a bulk length no string
    can have once the buffer holds what the test of the length asks for,
    and the decrement of the least 64-bit count.  The array-header state
    never does. *)
Theorem decoder_faults r st input f :
  Tokenize_step r st input = Abort f ->
  (f = OutOfBoundsRead /\ state_ r = BulkLen
   /\ exists after, evbuffer_readln input = Some ([], after))
  \/ (f = LengthError /\ state_ r = BulkData
      /\ string_max_size < Z.of_N (bulk_len_ r))
  \/ (f = SignedOverflow /\ state_ r = BulkData
      /\ multi_bulk_len_ r = INT64_MIN).
Proof.
  intros H. unfold Tokenize_step in H.
  destruct (state_ r) eqn:S.
  - destruct (evbuffer_readln input) as [[line after]|]; [|discriminate].
    destruct (array_len_of_line_total line) as [n A]. rewrite A in H.
    discriminate.
  - destruct (evbuffer_readln input) as [[line after]|] eqn:R; [|discriminate].
    destruct (bulk_len_of_line line) eqn:B; [discriminate|].
    apply bulk_len_of_line_guard in B. subst line.
    injection H as <-. left. repeat split. now exists after.
  - cbv zeta in H.
    destruct (size input <? _); [discriminate|].
    destruct (string_max_size <? Z.of_N (bulk_len_ r)) eqn:E.
    + injection H as <-. right. left. repeat split. now apply Z.ltb_lt.
    + destruct (multi_bulk_len_ r =? INT64_MIN) eqn:M.
      * injection H as <-. right. right. repeat split. now apply Z.eqb_eq.
      * destruct (multi_bulk_len_ r - 1 <=? 0); discriminate.
Qed.

Lemma decoder_faults_witness :
  (OutOfBoundsRead = OutOfBoundsRead
   /\ state_ (mkRequest BulkLen 1 0 [] []) = BulkLen
   /\ exists after, evbuffer_readln (wire [""; "x"]%string) = Some ([], after))
  \/ (OutOfBoundsRead = LengthError
      /\ state_ (mkRequest BulkLen 1 0 [] []) = BulkData
      /\ string_max_size < Z.of_N (bulk_len_ (mkRequest BulkLen 1 0 [] [])))
  \/ (OutOfBoundsRead = SignedOverflow
      /\ state_ (mkRequest BulkLen 1 0 [] []) = BulkData
      /\ multi_bulk_len_ (mkRequest BulkLen 1 0 [] []) = INT64_MIN).
Proof.
  apply (decoder_faults (mkRequest BulkLen 1 0 [] []) new_stats
           (wire [""; "x"]%string) OutOfBoundsRead).
  reflexivity.
Defined.

Section ReadEvent.

Variable Commander : Type.
Variable kCloseAfterReply : Z.
Variable LookupCommand : bytes -> bool -> option Commander.
Variable GetArity : Commander -> Z.
Variable IsWrite : Commander -> bool.
Variable Name : Commander -> bytes.
Variable Parse : Commander -> list bytes -> Status.
Variable Execute :
  Commander -> list bytes -> World Commander -> bytes
  -> Status * bytes * Z * World Commander.

Lemma loop_defined cmds : forall reply (w : World Commander),
  Forall (fun c => c <> []) cmds ->
  exists w',
    ExecuteCommands_loop Commander kCloseAfterReply LookupCommand GetArity
                         IsWrite Name Parse Execute cmds reply w
    = Finished w'.
Proof.
  induction cmds as [|c cmds IH]; intros reply w F; [now exists w|].
  inversion F as [|? ? Fc Fcmds]; subst.
  cbn [ExecuteCommands_loop].
  destruct (IsFlagEnabled kCloseAfterReply (conn_ w)); [now exists w|].
  destruct c as [|front args]; [congruence|].
  unfold process_command.
  destruct (_ && _); [apply IH; exact Fcmds|].
  destruct (LookupCommand front (repl_ (conn_ w))) as [cmd|];
    [|apply IH; exact Fcmds].
  cbv zeta. destruct (wrong_arity _ _); [apply IH; exact Fcmds|].
  destruct (parse_command _ _ _ _ _ _ _ _ _) as [reply1 w1].
  apply IH. exact Fcmds.
Qed.

(** X22.  A read event goes wrong only where the decoder does.  On a
    request whose waiting commands all have a token, [OnRead] ends with a
    result whenever [Tokenize] returns, and where it does not, the fault
    is the one of [Tokenize]: the dispatcher always finds the first token
    it asks for, and with commands that answer it always returns. *)
Theorem OnRead_faults_with_the_decoder
        chunk r input (w : World Commander) :
  Forall (fun c => c <> []) (commands_ r) ->
  match Tokenize r (stats_ (svr_ w)) (input ++ chunk) with
  | Returned r' st' input' =>
      exists r'' w'',
        OnRead Commander kCloseAfterReply LookupCommand GetArity IsWrite
               Name Parse Execute chunk r input w
        = Finished (r'', input', w'')
        /\ state_ r'' = state_ r' /\ tokens_ r'' = tokens_ r'
        /\ (commands_ r'' = [] \/ is_loading_ (svr_ w) = true)
  | Crashed f =>
      OnRead Commander kCloseAfterReply LookupCommand GetArity IsWrite
             Name Parse Execute chunk r input w
      = Undefined f
  | Exhausted => False
  end.
Proof.
  intros F. unfold OnRead.
  pose proof (Tokenize_total r (stats_ (svr_ w)) (input ++ chunk)) as T.
  destruct (Tokenize r (stats_ (svr_ w)) (input ++ chunk))
    as [r' st' input'|f|] eqn:E; [|reflexivity|congruence].
  pose proof (Tokenize_commands_nonempty _ _ _ _ _ _ E F) as F'.
  unfold ExecuteCommands.
  destruct (commands_ r') as [|c cmds] eqn:C.
  - exists r'. eexists. repeat split. now left.
  - cbn [svr_ with_stats is_loading_].
    destruct (is_loading_ (svr_ w)).
    + exists r'. eexists. repeat split. now right.
    + match goal with
      | |- context [ExecuteCommands_loop _ _ _ _ _ _ _ _ ?cs ?rp ?w0] =>
          destruct (loop_defined cs rp w0 F') as [w1 L]
      end.
      rewrite L. exists (clear_commands r'), w1. repeat split. now left.
Qed.

End ReadEvent.

Lemma OnRead_faults_with_the_decoder_witness :
  exists r'' w'',
    Demo.OnRead (wire ["*1"; "$3"; "GET"; "*1"]%string) new_request []
                Demo.guest
    = Finished (r'', [], w'')
    /\ state_ r'' = state_ (mkRequest BulkLen 1 3 [] [[str "GET"]])
    /\ tokens_ r'' = tokens_ (mkRequest BulkLen 1 3 [] [[str "GET"]])
    /\ (commands_ r'' = [] \/ is_loading_ (svr_ Demo.guest) = true).
Proof.
  exact (OnRead_faults_with_the_decoder Demo.Command Demo.kCloseAfterReply
           Demo.LookupCommand Demo.GetArity Demo.IsWrite Demo.Name
           Demo.Parse Demo.Execute (wire ["*1"; "$3"; "GET"; "*1"]%string)
           new_request [] Demo.guest (Forall_nil _)).
Defined.
